(** * Whole-word-mask data collator

    A shallow embedding of
    [examples/pytorch/language-modeling/utils/data_collator.py]:
    the word-start classifier [_is_start_piece_sp], the candidate grouper and
    selector [_whole_word_mask], the corruption policy [mask_tokens] and the
    batch entry point [__call__] of [AlbertDataCollatorForWholeWordMask].

    Conventions.
    - A Python [str] is held as the [string] of its UTF-8 bytes.  UTF-8 is
      prefix-free on code points, so [str.startswith] and [==] on code points
      coincide with prefix and equality on the encodings.
    - A Python [int] is a [Z]; positions and lengths are [nat].
    - A 2-D tensor is the list of its rows.
    - Randomness (the shuffle, the two Bernoulli tensors, the random words) is
      an explicit argument, so that a statement can quantify over every
      outcome or pick one. *)

From Stdlib Require Import ZArith Ascii String Permutation Sorted.
From stdpp Require Import gmap strings list fin_maps sets.

Open Scope string_scope.
Open Scope list_scope.
Open Scope nat_scope.

(** ** Python objects that end up in [special_pieces] *)

Module Py.

(** [str] and [bytes] are different types; a [str] never compares equal to
    a [bytes] object, whatever their contents. *)
Inductive obj : Type :=
| Str (s : string)
| Bytes (b : string).

#[global] Instance obj_eq_dec : EqDecision obj.
Proof. solve_decision. Defined.

(** [s.encode("utf-8")]: same bytes, now a [bytes] object. *)
Definition encode_utf8 (s : string) : obj := Bytes s.

(** [list(s)] for an ASCII-only [s]: its one-character strings. *)
Definition chars (s : string) : list obj :=
  (fun c => Str (String c EmptyString)) <$> list_ascii_of_string s.

(** [piece.startswith(p)] *)
Definition startswith (piece p : string) : bool := String.prefix p piece.

(** [x in s] for a set [s] given by the list of its elements. *)
Definition mem (x : obj) (s : list obj) : bool := bool_decide (x ∈ s).

(** Exceptions the collator can raise. *)
Inductive exn : Type :=
| AssertionError
| IndexError
| KeyError
| RuntimeError.

(** Result of a call: a value, or a raised exception. *)
Inductive outcome (A : Type) : Type :=
| Return (a : A)
| Raise (e : exn).
Arguments Return {A} a.
Arguments Raise {A} e.

(** Sequencing: an exception raised by the first call propagates.
    With these instances [x ← m; k] is the usual notation. *)
#[global] Instance outcome_ret : MRet outcome := fun A a => Return a.
#[global] Instance outcome_bind : MBind outcome := fun A B k m =>
  match m with
  | Return a => k a
  | Raise e => Raise e
  end.

End Py.

(** The double quote, written by code so that no literal has to escape it. *)
Definition dquote : string := String (ascii_of_nat 34) EmptyString.

(** The word-boundary marker U+2581 and the two currency glyphs. *)
Definition sp_marker : string := "▁".
Definition euro : string := "€".
Definition pound : string := "£".

(** ** [_is_start_piece_sp] *)

(** The literal on line 16: [!"#$%&"()*+,-./:;?@[\]^_`{|}~]. *)
Definition punct_literal : string :=
  "!" +:+ dquote +:+ "#$%&" +:+ dquote +:+ "()*+,-./:;?@[\]^_`{|}~".

(** [special_pieces] after the two [add] calls.  The glyphs are added
    after [.encode("utf-8")], hence as [bytes]. *)
Definition special_pieces : list Py.obj :=
  Py.chars punct_literal ++ [Py.encode_utf8 euro] ++ [Py.encode_utf8 pound].

Definition _is_start_piece_sp (piece : string) : bool :=
  if Py.startswith piece sp_marker
     || Py.startswith piece "<"
     || Py.mem (Py.Str piece) special_pieces
  then true
  else false.

(** ** The collator and its collaborators *)

(** A 2-D integer tensor, row by row. *)
Definition tensor : Type := list (list Z).

(** One element of [examples]: a dict / [BatchEncoding], or a raw id list. *)
Inductive example : Type :=
| ExDict (enc : gmap string (list Z))
| ExIds (ids : list Z).

(** What the collator uses of [self.tokenizer]. *)
Record Tokenizer : Type := {
  cls_token : string;
  sep_token : string;
  (** [convert_tokens_to_ids(mask_token)] *)
  mask_token_id : Z;
  (** [len(tokenizer)] *)
  vocab_len : Z;
  convert_ids_to_tokens : list Z -> list string;
  (** [get_special_tokens_mask(val, already_has_special_tokens=True)] *)
  get_special_tokens_mask : list Z -> list Z;
  (** [pad(examples, return_tensors="pt", pad_to_multiple_of=...)] *)
  tokenizer_pad : list example -> Py.outcome (gmap string tensor);
}.

(** The fields of [self].  [mlm_probability] is a float: what the code uses
    of it is [int(round(n * self.mlm_probability))] for a length [n], kept
    here as the function [scaled_round]. *)
Record Collator : Type := {
  tokenizer : Tokenizer;
  mlm : bool;
  scaled_round : nat -> Z;
}.

(** ** [_whole_word_mask]: grouping *)

(** [token in (self.tokenizer.cls_token, self.tokenizer.sep_token)] *)
Definition is_cls_or_sep (tk : Tokenizer) (token : string) : bool :=
  bool_decide (token = cls_token tk) || bool_decide (token = sep_token tk).

(** The loop of lines 79-86 from position [i] on, [tokens] being the tokens
    not yet visited. *)
Fixpoint group_loop (tk : Tokenizer) (i : nat) (tokens : list string)
    (cand_indexes : list (list nat)) : list (list nat) :=
  match tokens with
  | [] => cand_indexes
  | token :: rest =>
      if is_cls_or_sep tk token then
        group_loop tk (S i) rest cand_indexes
      else if (1 <=? length cand_indexes)%nat && negb (_is_start_piece_sp token) then
        group_loop tk (S i) rest
          (alter (fun g => g ++ [i]) (length cand_indexes - 1)%nat cand_indexes)
      else
        group_loop tk (S i) rest (cand_indexes ++ [[i]])
  end.

(** [cand_indexes] as it stands before the shuffle. *)
Definition cand_indexes (tk : Tokenizer) (input_tokens : list string)
    : list (list nat) :=
  group_loop tk 0 input_tokens [].

(** Position [i] holds a token that is neither [cls_token] nor [sep_token]. *)
Definition maskable (tk : Tokenizer) (tokens : list string) (i : nat) : Prop :=
  ∃ t, tokens !! i = Some t ∧ t ≠ cls_token tk ∧ t ≠ sep_token tk.

#[global] Instance maskable_dec tk tokens i : Decision (maskable tk tokens i).
Proof.
  unfold maskable. destruct (tokens !! i) as [t |].
  - destruct (decide (t ≠ cls_token tk ∧ t ≠ sep_token tk)) as [H | H].
    + left. eauto.
    + right. intros (t' & [= <-] & H'). auto.
  - right. intros (t' & [=] & _).
Defined.

(** Number of tokens that are neither [cls_token] nor [sep_token]. *)
Definition count_maskable (tk : Tokenizer) (tokens : list string) : nat :=
  length (filter (fun t => t ≠ cls_token tk ∧ t ≠ sep_token tk) tokens).

(** Groups read as words of the row [all]: no group is empty, every index
    after the first of a group holds a continuation piece, and the first
    index of every group but the first holds a word-start piece. *)
Definition word_groups (all : list string) (cand : list (list nat)) : Prop :=
  ∀ k g, cand !! k = Some g →
    g ≠ []
    ∧ (∀ p idx t, g !! S p = Some idx → all !! idx = Some t →
         _is_start_piece_sp t = false)
    ∧ (0 < k → ∀ idx t, g !! 0 = Some idx → all !! idx = Some t →
         _is_start_piece_sp t = true).

(** ** [_whole_word_mask]: selection *)

(** [num_to_predict] (line 89). *)
Definition num_to_predict (c : Collator) (input_tokens : list string)
    (max_predictions : Z) : Z :=
  Z.min max_predictions (Z.max 1 (scaled_round c (length input_tokens))).

(** The inner loop of lines 107-109: every index of the accepted group is
    added to [covered_indexes] and written into [mask_labels].  The indexes
    of a group are positions of the row, so the write is always in range
    (out of range Python would raise; the list update does nothing). *)
Definition cover (index_set : list nat) (st : gset nat * list Z)
    : gset nat * list Z :=
  fold_left
    (fun '(covered_indexes, mask_labels) index =>
       ({[index]} ∪ covered_indexes, <[index := 1%Z]> mask_labels))
    index_set st.

(** The loop of lines 94-109 over the shuffled groups, with its [break] and
    its two [continue]s. *)
Fixpoint select_loop (n : Z) (groups : list (list nat))
    (st : gset nat * list Z) : gset nat * list Z :=
  match groups with
  | [] => st
  | index_set :: rest =>
      if bool_decide (n ≤ Z.of_nat (size st.1))%Z then st
      else if bool_decide (n < Z.of_nat (size st.1) + Z.of_nat (length index_set))%Z then
        select_loop n rest st
      else if existsb (fun index => bool_decide (index ∈ st.1)) index_set then
        select_loop n rest st
      else
        select_loop n rest (cover index_set st)
  end.

(** [_whole_word_mask(input_tokens, max_predictions)]; [shuffle] is what
    [random.shuffle] does to [cand_indexes] in this call.  The warning for
    an unexpected tokenizer class has no effect on the result. *)
Definition _whole_word_mask (c : Collator)
    (shuffle : list (list nat) -> list (list nat))
    (input_tokens : list string) (max_predictions : Z) : list Z :=
  let cand := shuffle (cand_indexes (tokenizer c) input_tokens) in
  let n := num_to_predict c input_tokens max_predictions in
  let mask_labels := replicate (length input_tokens) 0%Z in
  (select_loop n cand (∅, mask_labels)).2.

(** Number of positions holding 1. *)
Definition count_ones (v : list Z) : nat :=
  length (filter (fun x => x = 1%Z) v).

(** The link between the set and the vector that the selection loop keeps:
    covered positions of the vector hold 1, and the vector has no more ones
    than the set has members. *)
Definition agree (st : gset nat * list Z) : Prop :=
  (∀ i, i ∈ st.1 → i < length st.2 → st.2 !! i = Some 1%Z)
  ∧ count_ones st.2 ≤ size st.1.

(** The vector has length [N] and holds 1 exactly at the covered
    positions, 0 elsewhere; every covered position is a position of the
    vector. *)
Definition marks (N : nat) (st : gset nat * list Z) : Prop :=
  length st.2 = N
  ∧ (∀ i, i ∈ st.1 → i < N)
  ∧ ∀ i, i < N → st.2 !! i = Some (if bool_decide (i ∈ st.1) then 1 else 0)%Z.

(** A group lies wholly inside the covered set, or wholly outside. *)
Definition whole (covered : gset nat) (g : list nat) : Prop :=
  (∀ x, x ∈ g → x ∈ covered) ∨ (∀ x, x ∈ g → x ∉ covered).

(** ** Tensor operations used by [mask_tokens] *)

Definition shape {A} (t : list (list A)) : list nat := length <$> t.

(** [.bool()] on an integer tensor. *)
Definition to_bool (t : tensor) : list (list bool) :=
  fmap (M := list) (fmap (M := list) (fun x => negb (x =? 0)%Z)) t.

Definition zip2 {A B C} (f : A -> B -> C) (a : list (list A))
    (b : list (list B)) : list (list C) :=
  zip_with (zip_with f) a b.

(** A tensor of the given shape filled position by position. *)
Definition tabulate {A} (f : nat -> nat -> A) (sh : list nat) : list (list A) :=
  imap (fun i n => f i <$> seq 0 n) sh.

(** [t.masked_fill_(mask, value)] *)
Definition masked_fill (t : tensor) (mask : list (list bool)) (value : Z) : tensor :=
  zip2 (fun x (m : bool) => if m then value else x) t mask.

(** [t[mask] = src[mask]]; a scalar right-hand side is a constant [src]. *)
Definition index_put (t : tensor) (mask : list (list bool)) (src : tensor) : tensor :=
  zip2 (fun x mv => if (mv.1 : bool) then mv.2 else x) t (zip2 pair mask src).

Definition full (sh : list nat) (v : Z) : tensor := tabulate (fun _ _ => v) sh.

Definition tand (a b : list (list bool)) : list (list bool) := zip2 andb a b.
Definition tnot (a : list (list bool)) : list (list bool) :=
  fmap (M := list) (fmap (M := list) negb) a.

(** Entry [(i, j)] of a tensor. *)
Definition at2 {A} (t : list (list A)) (i j : nat) : option A :=
  row ← t !! i; row !! j.

(** ** [mask_tokens] *)

(** The random source of one call of the collator. *)
Record Random : Type := {
  (** what [random.shuffle] does in the call for row [r] *)
  shuffle : nat -> list (list nat) -> list (list nat);
  (** [torch.bernoulli(torch.full(labels.shape, 0.8)).bool()] *)
  bernoulli_80 : nat -> nat -> bool;
  (** [torch.bernoulli(torch.full(labels.shape, 0.5)).bool()] *)
  bernoulli_50 : nat -> nat -> bool;
  (** [torch.randint(len(self.tokenizer), labels.shape)] *)
  random_words : nat -> nat -> Z;
}.

(** The two tensors of the caller that [mask_tokens] writes in place. *)
Record buffers : Type := {
  inputs_buf : tensor;
  mask_labels_buf : tensor;
}.

(** The boolean special-token mask of lines 126-132. *)
Definition special_mask (tk : Tokenizer) (labels : tensor)
    (special_tokens_mask : option tensor) : list (list bool) :=
  match special_tokens_mask with
  | None => to_bool (get_special_tokens_mask tk <$> labels)
  | Some m => to_bool m
  end.

(** [masked_indices] (line 136), from the zeroed [mask_labels]. *)
Definition masked_indices (mask_labels : tensor) (stm : list (list bool))
    : list (list bool) :=
  to_bool (masked_fill mask_labels stm 0).

(** [indices_replaced] (line 140). *)
Definition indices_replaced (rnd : Random) (masked : list (list bool))
    : list (list bool) :=
  tand (tabulate (bernoulli_80 rnd) (shape masked)) masked.

(** [indices_random] (line 144). *)
Definition indices_random (rnd : Random) (masked : list (list bool))
    : list (list bool) :=
  tand (tand (tabulate (bernoulli_50 rnd) (shape masked)) masked)
       (tnot (indices_replaced rnd masked)).

(** [mask_tokens(inputs, mask_labels, special_tokens_mask)].  The result
    pairs what the call returns (or raises) with the caller's two tensors as
    the call leaves them.  Element-wise operations are modelled on tensors
    of equal shape; on other shapes the corresponding torch call is taken to
    raise. *)
Definition mask_tokens (c : Collator) (rnd : Random) (b : buffers)
    (special_tokens_mask : option tensor)
    : Py.outcome (tensor * tensor) * buffers :=
  if negb (mlm c) then (Py.Raise Py.AssertionError, b)
  else
    let inputs := inputs_buf b in
    let labels := inputs in
    let stm := special_mask (tokenizer c) labels special_tokens_mask in
    if negb (bool_decide (shape stm = shape (mask_labels_buf b))) then
      (Py.Raise Py.RuntimeError, b)
    else
      let probability_matrix := masked_fill (mask_labels_buf b) stm 0 in
      let masked := to_bool probability_matrix in
      if negb (bool_decide (shape masked = shape labels)) then
        (Py.Raise Py.IndexError,
         {| inputs_buf := inputs; mask_labels_buf := probability_matrix |})
      else
        let labels := index_put labels (tnot masked) (full (shape labels) (-100)) in
        let replaced := indices_replaced rnd masked in
        let inputs := index_put inputs replaced
                        (full (shape inputs) (mask_token_id (tokenizer c))) in
        let random := indices_random rnd masked in
        if bool_decide (vocab_len (tokenizer c) ≤ 0)%Z then
          (Py.Raise Py.RuntimeError,
           {| inputs_buf := inputs; mask_labels_buf := probability_matrix |})
        else
          let words := tabulate (random_words rnd) (shape labels) in
          let inputs := index_put inputs random words in
          (Py.Return (inputs, labels),
           {| inputs_buf := inputs; mask_labels_buf := probability_matrix |}).

(** The conditions under which the call goes through: the assertion holds,
    the three tensors have one shape, and [torch.randint] has a non-empty
    range. *)
Definition runs (c : Collator) (b : buffers) (special_tokens_mask : option tensor)
    : Prop :=
  mlm c = true
  ∧ shape (special_mask (tokenizer c) (inputs_buf b) special_tokens_mask)
    = shape (mask_labels_buf b)
  ∧ shape (mask_labels_buf b) = shape (inputs_buf b)
  ∧ (0 < vocab_len (tokenizer c))%Z.

(** ** [__call__] *)

Section Call.

(** [_torch_collate_batch(rows, self.tokenizer, pad_to_multiple_of)], a
    library function. *)
Variable _torch_collate_batch : list (list Z) -> Py.outcome tensor.

(** An element handed to [_torch_collate_batch] must be an id sequence. *)
Definition raw_ids (e : example) : Py.outcome (list Z) :=
  match e with
  | ExIds ids => Py.Return ids
  | ExDict _ => Py.Raise Py.RuntimeError
  end.

(** Lines 52-55. *)
Definition collate_examples (tk : Tokenizer) (examples : list example)
    : Py.outcome (gmap string tensor) :=
  match examples with
  | [] => Py.Raise Py.IndexError
  | ExDict _ :: _ => tokenizer_pad tk examples
  | ExIds _ :: _ =>
      rows ← mapM raw_ids examples;
      ids ← _torch_collate_batch rows;
      mret ({["input_ids" := ids]} : gmap string tensor)
  end.

(** Lines 60-63: one mask-label vector per row of [input_ids]. *)
Definition row_masks (c : Collator) (rnd : Random) (input_ids : tensor)
    : list (list Z) :=
  imap (fun r e =>
          _whole_word_mask c (shuffle rnd r)
            (convert_ids_to_tokens (tokenizer c) e) 512)
       input_ids.

Definition __call__ (c : Collator) (rnd : Random) (examples : list example)
    : Py.outcome (gmap string tensor) :=
  batch ← collate_examples (tokenizer c) examples;
  let special_tokens_mask := batch !! "special_tokens_mask" in
  let batch := delete "special_tokens_mask" batch in
  input_ids ← from_option Py.Return (Py.Raise Py.KeyError) (batch !! "input_ids");
  batch_mask ← _torch_collate_batch (row_masks c rnd input_ids);
  res ← (mask_tokens c rnd
           {| inputs_buf := input_ids; mask_labels_buf := batch_mask |}
           special_tokens_mask).1;
  mret (<["labels" := res.2]> (<["input_ids" := res.1]> batch)).

End Call.

(** ** A concrete collator, for running the definitions *)

Module Sample.

(** Ids 0..8 of a toy SentencePiece vocabulary. *)
Definition vocab : list string :=
  ["<pad>"; "<unk>"; "[CLS]"; "[SEP]"; "[MASK]"; "▁the"; "▁quick"; "fox"; ","].

Definition tok : Tokenizer := {|
  cls_token := "[CLS]";
  sep_token := "[SEP]";
  mask_token_id := 4;
  vocab_len := 9;
  convert_ids_to_tokens := fun ids => (fun i => default "<unk>" (vocab !! Z.to_nat i)) <$> ids;
  get_special_tokens_mask := fun ids => (fun i => if (i <? 5)%Z then 1%Z else 0%Z) <$> ids;
  tokenizer_pad := fun examples =>
    rows ← mapM (fun e => match e with
                          | ExDict enc => from_option Py.Return (Py.Raise Py.KeyError) (enc !! "input_ids")
                          | ExIds _ => Py.Raise Py.KeyError
                          end) examples;
    mret ({["input_ids" := rows; "attention_mask" := (fmap (M := list) (fun _ => 1%Z)) <$> rows;
            "special_tokens_mask" := (fmap (M := list) (fun i => if (i <? 5)%Z then 1%Z else 0%Z)) <$> rows]}
          : gmap string tensor)
|}.

(** [mlm_probability = 1.0]: the product with a length is that length. *)
Definition collator : Collator :=
  {| tokenizer := tok; mlm := true; scaled_round := Z.of_nat |}.

Definition collator_no_mlm : Collator :=
  {| tokenizer := tok; mlm := false; scaled_round := Z.of_nat |}.

(** A shuffle that reverses the groups, Bernoulli draws that alternate,
    and a constant random word. *)
Definition rnd : Random := {|
  shuffle := fun _ groups => rev groups;
  bernoulli_80 := fun _ j => Nat.even j;
  bernoulli_50 := fun _ j => Nat.even (j / 2);
  random_words := fun _ _ => 7%Z
|}.

(** Rows of equal length are stacked as they are. *)
Definition stack (rows : list (list Z)) : Py.outcome tensor :=
  match rows with
  | [] => Py.Raise Py.IndexError
  | _ => Py.Return rows
  end.

Definition tokens : list string :=
  ["[CLS]"; "▁the"; "▁quick"; "fox"; "[SEP]"].

(** The ids of [tokens], as a batch of one row, and a mask-label tensor
    selecting both words. *)
Definition ids : tensor := [[2; 5; 6; 7; 3]]%Z.
Definition word_mask : tensor := [[0; 1; 1; 1; 0]]%Z.
Definition bufs : buffers :=
  {| inputs_buf := ids; mask_labels_buf := word_mask |}.

(** One pre-tokenized example and what [tokenizer_pad] makes of it. *)
Definition examples : list example :=
  [ExDict {["input_ids" := [2; 5; 6; 7; 3]%Z]}].
Definition padded : gmap string tensor :=
  {["input_ids" := ids;
    "attention_mask" := [[1; 1; 1; 1; 1]]%Z;
    "special_tokens_mask" := [[1; 0; 0; 0; 1]]%Z]}.

(** A padded row: the pad token follows the separator. *)
Definition padded_tokens : list string :=
  ["[CLS]"; "▁the"; "[SEP]"; "<pad>"].
Definition padded_ids : tensor := [[2; 5; 3; 0]]%Z.

End Sample.

(** * Properties *)

(** ** The word-start classifier *)

Lemma is_start_piece_sp_unfold piece :
  _is_start_piece_sp piece =
    Py.startswith piece sp_marker || Py.startswith piece "<"
    || Py.mem (Py.Str piece) special_pieces.
Proof. unfold _is_start_piece_sp. by destruct (_ || _ || _). Qed.

(** A [str] is in [special_pieces] only through the punctuation literal:
    the two [bytes] entries never equal a [str]. *)
Lemma str_in_special_pieces piece :
  Py.Str piece ∈ special_pieces ↔ Py.Str piece ∈ Py.chars punct_literal.
Proof.
  unfold special_pieces. rewrite !elem_of_app, !list_elem_of_singleton.
  unfold Py.encode_utf8. split; [intros [? | [? | ?]]; [done | discriminate..] | auto].
Qed.

(** What the classifier computes. *)
Lemma is_start_piece_sp_spec piece :
  _is_start_piece_sp piece = true ↔
    Py.startswith piece sp_marker = true
    ∨ Py.startswith piece "<" = true
    ∨ Py.Str piece ∈ Py.chars punct_literal.
Proof.
  rewrite is_start_piece_sp_unfold, !orb_true_iff.
  unfold Py.mem. rewrite bool_decide_eq_true, str_in_special_pieces. tauto.
Qed.

(** C6: the set that [_is_start_piece_sp] tests holds the two currency
    glyphs (as [bytes]), yet the classifier answers false on the tokens
    "€" and "£": a [str] token never equals a [bytes] entry. *)
Theorem is_start_piece_sp_currency_glyphs :
  Py.encode_utf8 euro ∈ special_pieces
  ∧ Py.encode_utf8 pound ∈ special_pieces
  ∧ _is_start_piece_sp euro = false
  ∧ _is_start_piece_sp pound = false.
Proof.
  split_and!; [| | reflexivity | reflexivity];
    unfold special_pieces; rewrite !elem_of_app, !list_elem_of_singleton; auto.
Qed.

(** ** Grouping *)

Lemma is_cls_or_sep_false tk t :
  is_cls_or_sep tk t = false ↔ t ≠ cls_token tk ∧ t ≠ sep_token tk.
Proof.
  unfold is_cls_or_sep. rewrite orb_false_iff, !bool_decide_eq_false. tauto.
Qed.

Lemma maskable_middle tk pre token rest :
  maskable tk (pre ++ token :: rest) (length pre) ↔ is_cls_or_sep tk token = false.
Proof.
  unfold maskable. rewrite is_cls_or_sep_false, list_lookup_middle by done.
  split; [intros (t & [= <-] & H); done | eauto].
Qed.

(** Appending to the last group appends to the concatenation. *)
Lemma concat_alter_last (cand : list (list nat)) (i : nat) :
  cand ≠ [] →
  concat (alter (fun g => g ++ [i]) (length cand - 1) cand) = concat cand ++ [i].
Proof.
  destruct cand as [| g cand _] using rev_ind; [done |]. intros _.
  rewrite length_app. simpl.
  replace (length cand + 1 - 1) with (length cand + 0) by lia.
  rewrite alter_app_r. simpl.
  rewrite !concat_app. simpl. by rewrite !app_nil_r, app_assoc.
Qed.

Lemma concat_snoc_singleton (cand : list (list nat)) (i : nat) :
  concat (cand ++ [[i]]) = concat cand ++ [i].
Proof. by rewrite concat_app. Qed.

(** The loop adds to the concatenation of the groups exactly the maskable
    positions it visits, in the order visited. *)
Lemma group_loop_concat tk tokens : ∀ pre cand,
  concat (group_loop tk (length pre) tokens cand) =
  concat cand ++
  filter (maskable tk (pre ++ tokens)) (seq (length pre) (length tokens)).
Proof.
  induction tokens as [| token rest IH]; intros pre cand; simpl.
  - by rewrite app_nil_r.
  - pose proof (IH (pre ++ [token])) as IH'.
    rewrite length_app in IH'. simpl in IH'. rewrite Nat.add_1_r in IH'.
    rewrite <- (app_assoc pre [token] rest) in IH'. simpl in IH'.
    rewrite filter_cons.
    destruct (is_cls_or_sep tk token) eqn:Hsp.
    + rewrite decide_False by (rewrite maskable_middle; congruence).
      apply IH'.
    + rewrite decide_True by (by rewrite maskable_middle).
      destruct (_ && _) eqn:Hcont; rewrite IH'.
      * apply andb_true_iff in Hcont as [Hlen _].
        rewrite concat_alter_last by (by intros ->).
        by rewrite <- app_assoc.
      * rewrite concat_snoc_singleton. by rewrite <- app_assoc.
Qed.

(** No group is ever empty. *)
Lemma group_loop_nonempty tk tokens : ∀ i cand,
  Forall (fun g => g ≠ []) cand →
  Forall (fun g => g ≠ []) (group_loop tk i tokens cand).
Proof.
  induction tokens as [| token rest IH]; intros i cand Hne; simpl; [done |].
  destruct (is_cls_or_sep tk token); [by apply IH |].
  destruct (_ && _); apply IH.
  - apply Forall_alter; [done |]. intros g _ _. by destruct g.
  - apply Forall_app. split; [done |]. by repeat constructor.
Qed.

Lemma cand_indexes_concat tk tokens :
  concat (cand_indexes tk tokens) =
  filter (maskable tk tokens) (seq 0 (length tokens)).
Proof. apply (group_loop_concat tk tokens [] []). Qed.

Lemma cand_indexes_NoDup tk tokens : NoDup (concat (cand_indexes tk tokens)).
Proof. rewrite cand_indexes_concat. apply NoDup_filter, NoDup_seq. Qed.

Lemma filter_seq_sorted (P : nat → Prop) `{!∀ i, Decision (P i)} n : ∀ a,
  StronglySorted lt (filter P (seq a n)).
Proof.
  induction n as [| n IH]; intros a; simpl; [constructor |].
  rewrite filter_cons. destruct (decide (P a)); [| apply IH].
  constructor; [apply IH |].
  apply Forall_forall. intros x [_ Hx%elem_of_seq]%list_elem_of_filter. lia.
Qed.

(** In a family of lists whose concatenation has no duplicates, an element
    lies in at most one member. *)
Lemma NoDup_concat_lookup_inj {A} (l : list (list A)) (x : A) : ∀ k k' g g',
  NoDup (concat l) →
  l !! k = Some g → l !! k' = Some g' → x ∈ g → x ∈ g' → k = k'.
Proof.
  induction l as [| h l IH]; intros k k' g g' Hnd Hk Hk' Hx Hx'; [done |].
  simpl in Hnd. apply NoDup_app in Hnd as (_ & Hdisj & Hnd).
  assert (Hin : ∀ j g0, l !! j = Some g0 → x ∈ g0 → x ∈ concat l).
  { intros j g0 Hj Hg0. apply list_elem_of_In, in_concat. exists g0.
    split; apply list_elem_of_In; [by eapply list_elem_of_lookup_2 | done]. }
  destruct k as [| k], k' as [| k']; simpl in *; simplify_eq.
  - done.
  - exfalso. eapply Hdisj; eauto.
  - exfalso. eapply Hdisj; eauto.
  - f_equal. eauto.
Qed.

(** C1: the groups built by [_whole_word_mask] partition the positions
    whose token is neither [cls_token] nor [sep_token].  Every such position
    lies in exactly one group; a group holds only such positions; and the
    groups read one after the other list these positions once each, in
    increasing order. *)
Theorem cand_indexes_partition (tk : Tokenizer) (input_tokens : list string) :
  let cand := cand_indexes tk input_tokens in
  (∀ i, maskable tk input_tokens i →
        ∃ k g, cand !! k = Some g ∧ i ∈ g
               ∧ ∀ k' g', cand !! k' = Some g' → i ∈ g' → k' = k)
  ∧ (∀ g i, g ∈ cand → i ∈ g → maskable tk input_tokens i)
  ∧ Forall (fun g => g ≠ []) cand
  ∧ NoDup (concat cand)
  ∧ StronglySorted lt (concat cand)
  ∧ concat cand = filter (maskable tk input_tokens) (seq 0 (length input_tokens)).
Proof.
  intros cand. pose proof (cand_indexes_concat tk input_tokens) as Hcat.
  fold cand in Hcat.
  pose proof (cand_indexes_NoDup tk input_tokens) as Hnd. fold cand in Hnd.
  split_and!; [| | | done | | done].
  - intros i Hi.
    assert (Hin : i ∈ concat cand).
    { rewrite Hcat. apply list_elem_of_filter. split; [done |].
      apply elem_of_seq. destruct Hi as (t & Ht%lookup_lt_Some & _). lia. }
    apply list_elem_of_In, in_concat in Hin as (g & Hg & Hig).
    apply list_elem_of_In, list_elem_of_lookup in Hg as [k Hk].
    apply list_elem_of_In in Hig.
    exists k, g. split_and!; [done | done |].
    intros k' g' Hk' Hig'. by eapply (NoDup_concat_lookup_inj cand i).
  - intros g i Hg Hig.
    assert (Hin : i ∈ concat cand).
    { apply list_elem_of_In, in_concat. exists g. by rewrite <- !list_elem_of_In. }
    rewrite Hcat in Hin. by apply list_elem_of_filter in Hin as [? _].
  - apply group_loop_nonempty. constructor.
  - rewrite Hcat. apply filter_seq_sorted.
Qed.

(** ** Selection *)

Lemma count_ones_insert_le (m : list Z) (i : nat) :
  count_ones (<[i := 1%Z]> m) ≤ S (count_ones m).
Proof.
  unfold count_ones. revert i.
  induction m as [| x m IH]; intros [| i]; simpl; try lia.
  - rewrite !filter_cons. destruct (decide (x = 1%Z)); simpl; lia.
  - rewrite !filter_cons. specialize (IH i).
    destruct (decide (x = 1%Z)); simpl; lia.
Qed.

Lemma agree_add (st : gset nat * list Z) (index : nat) :
  agree st → agree ({[index]} ∪ st.1, <[index := 1%Z]> st.2).
Proof.
  destruct st as [covered m]. intros [Hpos Hcnt]. simpl in *.
  split; simpl.
  - intros i Hi Hlt. rewrite length_insert in Hlt.
    destruct (decide (i = index)) as [-> | Hne].
    + by apply list_lookup_insert_eq.
    + rewrite list_lookup_insert_ne by done.
      apply elem_of_union in Hi as [Hi%elem_of_singleton | Hi]; [done | by apply Hpos].
  - destruct (decide (index ∈ covered)) as [Hin | Hout].
    + assert ({[index]} ∪ covered = covered) as ->
        by (apply subseteq_union_1_L; by apply singleton_subseteq_l).
      destruct (decide (index < length m)) as [Hlt | Hge].
      * by rewrite list_insert_id by auto.
      * by rewrite list_insert_ge by lia.
    + rewrite size_union by (by apply disjoint_singleton_l). rewrite size_singleton.
      pose proof (count_ones_insert_le m index). lia.
Qed.

Lemma cover_agree index_set : ∀ st, agree st → agree (cover index_set st).
Proof.
  unfold cover. induction index_set as [| index rest IH]; intros [covered m] H;
    simpl; [done |].
  apply IH. by apply (agree_add (covered, m)).
Qed.

Lemma cover_covered index_set : ∀ st,
  (cover index_set st).1 = list_to_set index_set ∪ st.1.
Proof.
  unfold cover. induction index_set as [| index rest IH]; intros [covered m];
    cbn [fold_left fst].
  - by rewrite list_to_set_nil, (left_id_L ∅ (∪)).
  - rewrite IH. cbn [fst].
    apply set_eq. intros y. rewrite list_to_set_cons, !elem_of_union. tauto.
Qed.

Lemma cover_length index_set : ∀ st,
  length (cover index_set st).2 = length st.2.
Proof.
  unfold cover. induction index_set as [| index rest IH]; intros [covered m];
    simpl; [done |].
  rewrite IH. simpl. apply length_insert.
Qed.

Lemma size_union_bound (X Y : gset nat) : size (X ∪ Y) ≤ size X + size Y.
Proof.
  rewrite size_union_alt.
  assert (size (Y ∖ X) ≤ size Y).
  { apply subseteq_size. intros y Hy%elem_of_difference. tauto. }
  lia.
Qed.

Lemma size_list_to_set_le (l : list nat) :
  size (list_to_set l : gset nat) ≤ length l.
Proof.
  induction l as [| x l IH]; [by rewrite list_to_set_nil, size_empty |].
  rewrite list_to_set_cons. simpl.
  etrans; [apply size_union_bound |]. rewrite size_singleton. lia.
Qed.

Lemma cover_size index_set st :
  size (cover index_set st).1 ≤ size st.1 + length index_set.
Proof.
  rewrite cover_covered. etrans; [apply size_union_bound |].
  pose proof (size_list_to_set_le index_set). lia.
Qed.

Lemma select_loop_agree n groups : ∀ st,
  agree st → agree (select_loop n groups st).
Proof.
  induction groups as [| g rest IH]; intros st H; simpl; [done |].
  repeat case_match; auto using cover_agree.
Qed.

Lemma select_loop_length n groups : ∀ st,
  length (select_loop n groups st).2 = length st.2.
Proof.
  induction groups as [| g rest IH]; intros st; simpl; [done |].
  repeat case_match; rewrite ?IH, ?cover_length; done.
Qed.

(** The covered set never grows beyond the budget. *)
Lemma select_loop_budget n groups : ∀ st,
  (Z.of_nat (size st.1) ≤ Z.max 0 n)%Z →
  (Z.of_nat (size (select_loop n groups st).1) ≤ Z.max 0 n)%Z.
Proof.
  induction groups as [| g rest IH]; intros st H; simpl; [done |].
  destruct (bool_decide _) eqn:Hbreak; [done |].
  destruct (bool_decide (n < _)%Z) eqn:Hskip; [by apply IH |].
  destruct (existsb _ g); [by apply IH |].
  apply IH. apply bool_decide_eq_false in Hskip.
  pose proof (cover_size g st). lia.
Qed.

(** Only positions of the groups offered to the loop get covered. *)
Lemma select_loop_subset n groups : ∀ st,
  (select_loop n groups st).1 ⊆ st.1 ∪ list_to_set (concat groups).
Proof.
  induction groups as [| g rest IH]; intros st; simpl.
  - apply union_subseteq_l.
  - rewrite list_to_set_app_L.
    assert (Hrest : ∀ st', st'.1 ⊆ st.1 ∪ list_to_set g →
              (select_loop n rest st').1
              ⊆ st.1 ∪ (list_to_set g ∪ list_to_set (concat rest))).
    { intros st' Hst'. etrans; [apply IH |].
      intros x [Hx%Hst' | Hx]%elem_of_union; rewrite !elem_of_union in *; tauto. }
    repeat case_match.
    + apply union_subseteq_l.
    + apply Hrest, union_subseteq_l.
    + apply Hrest, union_subseteq_l.
    + apply Hrest. rewrite cover_covered.
      intros x. rewrite !elem_of_union. tauto.
Qed.

Lemma count_ones_zeros (n : nat) : count_ones (replicate n 0%Z) = 0.
Proof.
  unfold count_ones. induction n as [| n IH]; simpl; [done |].
  by rewrite filter_cons_False by done.
Qed.

Lemma agree_init (n : nat) : agree (∅, replicate n 0%Z).
Proof.
  split; cbn [fst snd].
  - intros i Hi. by apply not_elem_of_empty in Hi.
  - rewrite count_ones_zeros. lia.
Qed.

Lemma maskable_positions_length tk tokens : ∀ pre,
  length (filter (maskable tk (pre ++ tokens)) (seq (length pre) (length tokens)))
  = count_maskable tk tokens.
Proof.
  unfold count_maskable.
  induction tokens as [| token rest IH]; intros pre; simpl; [done |].
  pose proof (IH (pre ++ [token])) as IH'.
  rewrite length_app in IH'. simpl in IH'. rewrite Nat.add_1_r in IH'.
  rewrite <- (app_assoc pre [token] rest) in IH'. simpl in IH'.
  rewrite !filter_cons.
  destruct (decide (maskable _ _ _)) as [H | H], (decide (_ ∧ _)) as [H' | H'];
    rewrite maskable_middle, is_cls_or_sep_false in H; try tauto; simpl;
    by rewrite IH'.
Qed.

Lemma cand_indexes_total_length tk tokens :
  length (concat (cand_indexes tk tokens)) = count_maskable tk tokens.
Proof.
  rewrite cand_indexes_concat. apply (maskable_positions_length tk tokens []).
Qed.

Lemma Permutation_concat_subset (l k : list (list nat)) :
  l ≡ₚ k → (list_to_set (concat k) : gset nat) ⊆ list_to_set (concat l).
Proof.
  intros Hp x. rewrite !elem_of_list_to_set, !list_elem_of_In, !in_concat.
  intros (g & Hg & Hx). exists g. split; [| done].
  apply list_elem_of_In. rewrite Hp. by apply list_elem_of_In.
Qed.

Lemma whole_word_mask_length c shuffle tokens max_predictions :
  length (_whole_word_mask c shuffle tokens max_predictions) = length tokens.
Proof.
  unfold _whole_word_mask. rewrite select_loop_length. simpl.
  apply length_replicate.
Qed.

(** C2, as the code has it: for every outcome of the shuffle, the number of
    ones in the vector returned by [_whole_word_mask] is at most
    [max 0 (min max_predictions (max 1 round(N * p)))] -- that is, at most
    [min max_predictions (max 1 round(N * p))] whenever [max_predictions] is
    not negative -- and at most the number of tokens that are neither
    [cls_token] nor [sep_token]. *)
Theorem whole_word_mask_budget (c : Collator)
    (shuffle : list (list nat) → list (list nat))
    (input_tokens : list string) (max_predictions : Z) :
  cand_indexes (tokenizer c) input_tokens
    ≡ₚ shuffle (cand_indexes (tokenizer c) input_tokens) →
  let ones := count_ones (_whole_word_mask c shuffle input_tokens max_predictions) in
  let bound := Z.min max_predictions
                 (Z.max 1 (scaled_round c (length input_tokens))) in
  (Z.of_nat ones ≤ Z.max 0 bound)%Z
  ∧ ((0 ≤ max_predictions)%Z → (Z.of_nat ones ≤ bound)%Z)
  ∧ ones ≤ count_maskable (tokenizer c) input_tokens.
Proof.
  intros Hperm ones bound.
  set (cand := cand_indexes (tokenizer c) input_tokens) in *.
  set (st := select_loop (num_to_predict c input_tokens max_predictions)
               (shuffle cand) (∅, replicate (length input_tokens) 0%Z)).
  assert (Hones : ones ≤ size st.1).
  { apply (select_loop_agree _ (shuffle cand) _ (agree_init _)). }
  assert (Hbudget : (Z.of_nat (size st.1) ≤ Z.max 0 bound)%Z).
  { apply select_loop_budget. cbn [fst]. rewrite size_empty. lia. }
  split_and!.
  - lia.
  - intros Hcap. subst bound. lia.
  - etrans; [exact Hones |].
    rewrite <- cand_indexes_total_length. fold cand.
    rewrite <- (size_list_to_set (C := gset nat)).
    + apply subseteq_size. etrans; [apply select_loop_subset |]. cbn [fst].
      pose proof (Permutation_concat_subset _ _ Hperm) as Hsub.
      intros x [Hx | Hx]%elem_of_union; [by apply not_elem_of_empty in Hx | auto].
    + apply cand_indexes_NoDup.
Qed.

(** ** Tensors, entry by entry *)

Section Tensors.

Context {A B C : Type}.

Lemma at2_Some (t : list (list A)) i j x :
  at2 t i j = Some x ↔ ∃ row, t !! i = Some row ∧ row !! j = Some x.
Proof.
  unfold at2. destruct (t !! i) as [row |]; simpl.
  - split; [eauto | by intros (? & [= <-] & ?)].
  - split; [done | by intros (? & [=] & _)].
Qed.

Lemma at2_fmap (g : A → B) (t : list (list A)) i j :
  at2 (fmap (M := list) (fmap (M := list) g) t) i j = g <$> at2 t i j.
Proof.
  unfold at2. rewrite list_lookup_fmap.
  destruct (t !! i) as [row |]; simpl; [| done]. apply list_lookup_fmap.
Qed.

Lemma at2_zip2 (f : A → B → C) (a : list (list A)) (b : list (list B)) i j :
  at2 (zip2 f a b) i j = x ← at2 a i j; y ← at2 b i j; Some (f x y).
Proof.
  unfold at2, zip2. rewrite lookup_zip_with.
  destruct (a !! i) as [ra |]; simpl; [| done].
  destruct (b !! i) as [rb |]; simpl.
  - apply lookup_zip_with.
  - by destruct (ra !! j).
Qed.

Lemma at2_tabulate (f : nat → nat → B) (t : list (list A)) i j x :
  at2 t i j = Some x → at2 (tabulate f (shape t)) i j = Some (f i j).
Proof.
  intros (row & Hrow & Hx)%at2_Some. unfold at2, tabulate, shape.
  rewrite list_lookup_imap, list_lookup_fmap, Hrow. simpl.
  rewrite list_lookup_fmap, lookup_seq_lt by by eapply lookup_lt_Some.
  done.
Qed.

Lemma shape_fmap (g : A → B) (t : list (list A)) :
  shape (fmap (M := list) (fmap (M := list) g) t) = shape t.
Proof.
  unfold shape. rewrite <- list_fmap_compose. apply list_fmap_ext.
  intros _ row _. simpl. apply length_fmap.
Qed.

Lemma shape_zip2 (f : A → B → C) (a : list (list A)) : ∀ b : list (list B),
  shape a = shape b → shape (zip2 f a b) = shape a.
Proof.
  unfold shape, zip2.
  induction a as [| ra a IH]; intros [| rb b] Hs; simplify_eq/=; [done |].
  rewrite length_zip_with, IH by done. f_equal. lia.
Qed.

Lemma shape_tabulate (f : nat → nat → B) (sh : list nat) :
  shape (tabulate f sh) = sh.
Proof.
  unfold shape, tabulate. apply list_eq. intros i.
  rewrite list_lookup_fmap, list_lookup_imap.
  destruct (sh !! i); simpl; [| done]. by rewrite length_fmap, length_seq.
Qed.

(** Tensors of one shape have entries at the same positions. *)
Lemma at2_same_shape (a : list (list A)) (b : list (list B)) i j x :
  shape a = shape b → at2 a i j = Some x → ∃ y, at2 b i j = Some y.
Proof.
  intros Hs (ra & Hra & Hx)%at2_Some.
  assert (shape b !! i = Some (length ra)) as Hb.
  { rewrite <- Hs. unfold shape. by rewrite list_lookup_fmap, Hra. }
  unfold shape in Hb. rewrite list_lookup_fmap in Hb.
  destruct (b !! i) as [rb |] eqn:Hrb; simpl in Hb; [| done].
  injection Hb as Hlen.
  destruct (lookup_lt_is_Some_2 rb j) as [y Hy].
  { rewrite Hlen. by eapply lookup_lt_Some. }
  exists y. unfold at2. by rewrite Hrb.
Qed.

(** Tensors of one shape with the same entries are equal. *)
Lemma tensor_ext (a b : list (list A)) :
  shape a = shape b → (∀ i j, at2 a i j = at2 b i j) → a = b.
Proof.
  intros Hs Hat. apply list_eq. intros i.
  pose proof (f_equal (.!! i) Hs) as Hi. unfold shape in Hi.
  rewrite !list_lookup_fmap in Hi.
  destruct (a !! i) as [ra |] eqn:Hra, (b !! i) as [rb |] eqn:Hrb;
    simplify_eq/=; [| done].
  f_equal. apply list_eq. intros j. specialize (Hat i j).
  unfold at2 in Hat. by rewrite Hra, Hrb in Hat.
Qed.

End Tensors.

Lemma at2_index_put (t : tensor) (mask : list (list bool)) (src : tensor)
    i j x m v :
  at2 t i j = Some x → at2 mask i j = Some m → at2 src i j = Some v →
  at2 (index_put t mask src) i j = Some (if m then v else x).
Proof.
  intros Hx Hm Hv. unfold index_put.
  rewrite !at2_zip2, Hx, Hm, Hv. done.
Qed.

Lemma shape_index_put (t : tensor) (mask : list (list bool)) (src : tensor) :
  shape t = shape mask → shape t = shape src → shape (index_put t mask src) = shape t.
Proof.
  intros Hm Hs. unfold index_put. apply shape_zip2.
  rewrite shape_zip2; congruence.
Qed.

Lemma shape_masked_fill (t : tensor) (mask : list (list bool)) v :
  shape mask = shape t → shape (masked_fill t mask v) = shape t.
Proof. intros Hs. by apply shape_zip2. Qed.

Lemma shape_to_bool (t : tensor) : shape (to_bool t) = shape t.
Proof. apply shape_fmap. Qed.

Lemma shape_masked_indices (ml : tensor) (stm : list (list bool)) :
  shape stm = shape ml → shape (masked_indices ml stm) = shape ml.
Proof.
  intros Hs. unfold masked_indices. by rewrite shape_to_bool, shape_masked_fill.
Qed.

Lemma shape_indices_replaced rnd (masked : list (list bool)) :
  shape (indices_replaced rnd masked) = shape masked.
Proof.
  unfold indices_replaced, tand.
  rewrite shape_zip2; by rewrite shape_tabulate.
Qed.

Lemma shape_indices_random rnd (masked : list (list bool)) :
  shape (indices_random rnd masked) = shape masked.
Proof.
  unfold indices_random, tand, tnot.
  assert (shape (zip2 andb (tabulate (bernoulli_50 rnd) (shape masked)) masked)
          = shape masked) as H1.
  { rewrite shape_zip2; by rewrite shape_tabulate. }
  rewrite shape_zip2; [done |].
  by rewrite H1, shape_fmap, shape_indices_replaced.
Qed.

(** ** [mask_tokens] *)

(** What [mask_tokens] returns and leaves behind when it runs. *)
Lemma mask_tokens_run c rnd b o :
  runs c b o →
  let stm := special_mask (tokenizer c) (inputs_buf b) o in
  let masked := masked_indices (mask_labels_buf b) stm in
  let sh := shape (inputs_buf b) in
  let inputs' :=
    index_put
      (index_put (inputs_buf b) (indices_replaced rnd masked)
         (full sh (mask_token_id (tokenizer c))))
      (indices_random rnd masked) (tabulate (random_words rnd) sh) in
  let labels := index_put (inputs_buf b) (tnot masked) (full sh (-100)) in
  mask_tokens c rnd b o =
    (Py.Return (inputs', labels),
     {| inputs_buf := inputs';
        mask_labels_buf := masked_fill (mask_labels_buf b) stm 0 |}).
Proof.
  intros (Hmlm & Hstm & Hml & Hvocab) stm masked sh inputs' labels.
  assert (shape masked = sh) as Hmasked.
  { unfold masked. rewrite shape_masked_indices; done. }
  assert (shape labels = sh) as Hlabels.
  { unfold labels. apply shape_index_put.
    - unfold tnot. by rewrite shape_fmap.
    - unfold full. by rewrite shape_tabulate. }
  unfold mask_tokens. rewrite Hmlm. cbn [negb].
  fold stm. rewrite (bool_decide_eq_true_2 _ Hstm). cbn [negb].
  change (to_bool (masked_fill (mask_labels_buf b) stm 0)) with masked.
  rewrite (bool_decide_eq_true_2 _ Hmasked). cbn [negb].
  rewrite bool_decide_eq_false_2 by lia.
  fold sh. fold labels. rewrite Hlabels. done.
Qed.

(** Entry by entry: what the call computes at a position of [inputs]. *)
Lemma mask_tokens_entry c rnd b o inputs' labels b' i j x :
  runs c b o →
  mask_tokens c rnd b o = (Py.Return (inputs', labels), b') →
  at2 (inputs_buf b) i j = Some x →
  let stm := special_mask (tokenizer c) (inputs_buf b) o in
  let masked := masked_indices (mask_labels_buf b) stm in
  ∃ l s,
    at2 (mask_labels_buf b) i j = Some l
    ∧ at2 stm i j = Some s
    ∧ let l' := if (s : bool) then 0%Z else l in
      let m := negb (l' =? 0)%Z in
      let rep := bernoulli_80 rnd i j && m in
      let ran := bernoulli_50 rnd i j && m && negb rep in
      at2 (mask_labels_buf b') i j = Some l'
      ∧ at2 masked i j = Some m
      ∧ at2 (indices_replaced rnd masked) i j = Some rep
      ∧ at2 (indices_random rnd masked) i j = Some ran
      ∧ at2 labels i j = Some (if m then x else (-100)%Z)
      ∧ at2 inputs' i j =
          Some (if ran then random_words rnd i j
                else if rep then mask_token_id (tokenizer c) else x)
      ∧ inputs_buf b' = inputs'.
Proof.
  intros Hruns Hcall Hx stm masked.
  rewrite (mask_tokens_run c rnd b o Hruns) in Hcall.
  destruct Hruns as (_ & Hstm & Hml & _). fold stm in Hstm.
  destruct (at2_same_shape _ (mask_labels_buf b) i j x (eq_sym Hml) Hx) as [l Hl].
  destruct (at2_same_shape _ stm i j l (eq_sym Hstm) Hl) as [s Hs].
  exists l, s. split; [done |]. split; [done |]. intros l' m rep ran.
  assert (at2 (masked_fill (mask_labels_buf b) stm 0) i j = Some l') as Hl'.
  { unfold masked_fill. by rewrite at2_zip2, Hl, Hs. }
  assert (at2 masked i j = Some m) as Hm.
  { unfold masked, masked_indices, to_bool. by rewrite at2_fmap, Hl'. }
  assert (shape masked = shape (inputs_buf b)) as Hsh.
  { unfold masked. rewrite shape_masked_indices; done. }
  assert (at2 (indices_replaced rnd masked) i j = Some rep) as Hrep.
  { unfold indices_replaced, tand.
    by rewrite at2_zip2, (at2_tabulate _ _ _ _ _ Hm), Hm. }
  assert (at2 (indices_random rnd masked) i j = Some ran) as Hran.
  { unfold indices_random, tand, tnot.
    by rewrite !at2_zip2, at2_fmap, (at2_tabulate _ _ _ _ _ Hm), Hm, Hrep. }
  assert (at2 (index_put (inputs_buf b) (tnot masked)
                 (full (shape (inputs_buf b)) (-100))) i j
          = Some (if m then x else (-100)%Z)) as Hlab.
  { rewrite (at2_index_put _ _ _ i j x (negb m) (-100)%Z Hx).
    - by destruct m.
    - unfold tnot. by rewrite at2_fmap, Hm.
    - unfold full. by eapply at2_tabulate. }
  assert (at2 (index_put
                 (index_put (inputs_buf b) (indices_replaced rnd masked)
                    (full (shape (inputs_buf b)) (mask_token_id (tokenizer c))))
                 (indices_random rnd masked)
                 (tabulate (random_words rnd) (shape (inputs_buf b)))) i j
          = Some (if ran then random_words rnd i j
                  else if rep then mask_token_id (tokenizer c) else x)) as Hinp.
  { eapply at2_index_put; [| done | by eapply at2_tabulate].
    eapply at2_index_put; [done | done |]. unfold full. by eapply at2_tabulate. }
  injection Hcall as <- <- <-. cbn [inputs_buf mask_labels_buf].
  split_and!; done.
Qed.

Lemma mask_tokens_shapes c rnd b o inputs' labels b' :
  runs c b o →
  mask_tokens c rnd b o = (Py.Return (inputs', labels), b') →
  shape inputs' = shape (inputs_buf b)
  ∧ shape labels = shape (inputs_buf b)
  ∧ shape (mask_labels_buf b') = shape (inputs_buf b).
Proof.
  intros Hruns Hcall. rewrite (mask_tokens_run c rnd b o Hruns) in Hcall.
  destruct Hruns as (_ & Hstm & Hml & _).
  set (masked := masked_indices _ _) in Hcall.
  assert (shape masked = shape (inputs_buf b)) as Hsh.
  { unfold masked. rewrite shape_masked_indices; done. }
  injection Hcall as <- <- <-. cbn [inputs_buf mask_labels_buf].
  assert (∀ v, shape (full (shape (inputs_buf b)) v) = shape (inputs_buf b)) as Hfull.
  { intros v. unfold full. apply shape_tabulate. }
  assert (shape (index_put (inputs_buf b) (indices_replaced rnd masked)
                   (full (shape (inputs_buf b)) (mask_token_id (tokenizer c))))
          = shape (inputs_buf b)) as Hrep.
  { apply shape_index_put; [by rewrite shape_indices_replaced | by rewrite Hfull]. }
  split_and!.
  - rewrite shape_index_put; [done | |].
    + by rewrite Hrep, shape_indices_random.
    + by rewrite Hrep, shape_tabulate.
  - apply shape_index_put; [| by rewrite Hfull].
    unfold tnot. by rewrite shape_fmap.
  - by rewrite shape_masked_fill.
Qed.

(** C9: [mask_tokens] raises [AssertionError], leaving both tensors as they
    were, when [mlm] is off; when [mlm] is on it never raises
    [AssertionError]. *)
Theorem mask_tokens_assertion (c : Collator) (rnd : Random) (b : buffers)
    (special_tokens_mask : option tensor) :
  (mlm c = false →
     mask_tokens c rnd b special_tokens_mask = (Py.Raise Py.AssertionError, b))
  ∧ (mlm c = true →
     (mask_tokens c rnd b special_tokens_mask).1 ≠ Py.Raise Py.AssertionError)
  ∧ ((mask_tokens c rnd b special_tokens_mask).1 = Py.Raise Py.AssertionError
     ↔ mlm c = false).
Proof.
  unfold mask_tokens. destruct (mlm c); cbn [negb].
  - split_and!.
    + done.
    + intros _. repeat case_match; by cbn [fst].
    + split; [| done]. repeat case_match; by cbn [fst].
  - split_and!; done.
Qed.

(** C3, as the code has it: whenever the call runs, the returned labels
    tensor has the shape of the inputs, holds the original input id where
    the mask label is non-zero after special-token zeroing and -100 where
    that mask label is 0.  So a label other than -100 marks a masked
    position; a masked position has a label other than -100 provided its
    original id is not -100 itself. *)
Theorem mask_tokens_labels (c : Collator) (rnd : Random) (b : buffers)
    (special_tokens_mask : option tensor) :
  runs c b special_tokens_mask →
  ∃ inputs' labels b',
    mask_tokens c rnd b special_tokens_mask = (Py.Return (inputs', labels), b')
    ∧ shape labels = shape (inputs_buf b)
    ∧ ∀ i j x, at2 (inputs_buf b) i j = Some x →
        ∃ l', at2 (mask_labels_buf b') i j = Some l'
          ∧ (l' ≠ 0%Z → at2 labels i j = Some x)
          ∧ (l' = 0%Z → at2 labels i j = Some (-100)%Z)
          ∧ (at2 labels i j ≠ Some (-100)%Z → l' ≠ 0%Z)
          ∧ (l' ≠ 0%Z → x ≠ (-100)%Z → at2 labels i j ≠ Some (-100)%Z).
Proof.
  intros Hruns. pose proof (mask_tokens_run c rnd b _ Hruns) as Hrun.
  cbv zeta in Hrun. eexists _, _, _. split; [exact Hrun |].
  split; [by eapply mask_tokens_shapes |].
  intros i j x Hx.
  destruct (mask_tokens_entry _ _ _ _ _ _ _ i j x Hruns Hrun Hx)
    as (l & s & _ & _ & Hl' & _ & _ & _ & Hlab & _).
  eexists. split; [exact Hl' |]. rewrite Hlab.
  destruct (Z.eqb_spec (if s then 0%Z else l) 0) as [-> | Hne]; cbn [negb].
  - split_and!; done.
  - split_and!; try done. intros _ Hx100 [= ?]. done.
Qed.

(** Where the boolean mask of lines 126-132 is true, the call keeps the
    input, sets the label to -100 and zeroes the mask label. *)
Lemma mask_tokens_where_mask_true (c : Collator) (rnd : Random)
    (b : buffers) (special_tokens_mask : option tensor) :
  runs c b special_tokens_mask →
  let stm := special_mask (tokenizer c) (inputs_buf b) special_tokens_mask in
  ∃ inputs' labels b',
    mask_tokens c rnd b special_tokens_mask = (Py.Return (inputs', labels), b')
    ∧ inputs_buf b' = inputs'
    ∧ (∀ i j, at2 stm i j = Some true →
         is_Some (at2 (inputs_buf b) i j)
         ∧ at2 inputs' i j = at2 (inputs_buf b) i j
         ∧ at2 labels i j = Some (-100)%Z
         ∧ at2 (mask_labels_buf b') i j = Some 0%Z)
    ∧ ((∀ i j s, at2 stm i j = Some s → s = true) →
         inputs' = inputs_buf b
         ∧ (∀ i j l, at2 (mask_labels_buf b') i j = Some l → l = 0%Z)
         ∧ (∀ i j y, at2 labels i j = Some y → y = (-100)%Z)).
Proof.
  intros Hruns stm. pose proof (mask_tokens_run c rnd b _ Hruns) as Hrun.
  cbv zeta in Hrun. eexists _, _, _. split; [exact Hrun |].
  pose proof (mask_tokens_shapes _ _ _ _ _ _ _ Hruns Hrun)
    as (Hsh_in & Hsh_lab & Hsh_ml).
  pose proof Hruns as (_ & Hstm & Hml & _). fold stm in Hstm.
  assert (Hspecial : ∀ i j x, at2 (inputs_buf b) i j = Some x →
            at2 stm i j = Some true →
            at2 (index_put
                   (index_put (inputs_buf b)
                      (indices_replaced rnd (masked_indices (mask_labels_buf b) stm))
                      (full (shape (inputs_buf b)) (mask_token_id (tokenizer c))))
                   (indices_random rnd (masked_indices (mask_labels_buf b) stm))
                   (tabulate (random_words rnd) (shape (inputs_buf b)))) i j = Some x
            ∧ at2 (index_put (inputs_buf b)
                     (tnot (masked_indices (mask_labels_buf b) stm))
                     (full (shape (inputs_buf b)) (-100))) i j = Some (-100)%Z
            ∧ at2 (masked_fill (mask_labels_buf b) stm 0) i j = Some 0%Z).
  { intros i j x Hx Hs.
    destruct (mask_tokens_entry _ _ _ _ _ _ _ i j x Hruns Hrun Hx)
      as (l & s & _ & Hs' & Hl' & _ & _ & _ & Hlab & Hinp & _).
    fold stm in Hs'. rewrite Hs in Hs'. injection Hs' as <-.
    cbn in Hl', Hlab, Hinp. rewrite !andb_false_r in Hinp. done. }
  split; [done |]. split.
  - intros i j Hs.
    destruct (at2_same_shape _ (inputs_buf b) i j true (eq_trans Hstm Hml) Hs)
      as [x Hx].
    destruct (Hspecial i j x Hx Hs) as (Hinp & Hlab & Hl).
    rewrite Hx. split_and!; eauto.
  - intros Hall.
    assert (Hstm_at : ∀ i j x, at2 (inputs_buf b) i j = Some x →
              at2 stm i j = Some true).
    { intros i j x Hx.
      destruct (at2_same_shape _ stm i j x (eq_sym (eq_trans Hstm Hml)) Hx)
        as [s Hs].
      by rewrite Hs, (Hall i j s Hs). }
    split_and!.
    + apply tensor_ext; [done |]. intros i j.
      destruct (at2 (inputs_buf b) i j) as [x |] eqn:Hx.
      * by apply Hspecial; [| eapply Hstm_at].
      * match goal with |- ?lhs = None => destruct lhs as [y |] eqn:Hy end;
          [| done].
        destruct (at2_same_shape _ (inputs_buf b) i j y Hsh_in Hy) as [x Hx'].
        congruence.
    + intros i j l Hl.
      destruct (at2_same_shape _ (inputs_buf b) i j l Hsh_ml Hl) as [x Hx].
      destruct (Hspecial i j x Hx (Hstm_at i j x Hx)) as (_ & _ & Hl0).
      cbn [mask_labels_buf] in Hl. unfold stm in Hl0. congruence.
    + intros i j y Hy.
      destruct (at2_same_shape _ (inputs_buf b) i j y Hsh_lab Hy) as [x Hx].
      destruct (Hspecial i j x Hx (Hstm_at i j x Hx)) as (_ & Hlab & _).
      unfold stm in Hlab. congruence.
Qed.

(** The boolean mask read off a provided tensor: true where the tensor is
    non-zero. *)
Lemma at2_special_mask_provided tk inputs (m : tensor) i j s :
  at2 m i j = Some s →
  at2 (special_mask tk inputs (Some m)) i j = Some (negb (s =? 0)%Z).
Proof.
  intros Hs. cbn [special_mask]. unfold to_bool. by rewrite at2_fmap, Hs.
Qed.

(** The boolean mask derived from the tokenizer: row by row, true where
    [get_special_tokens_mask] is non-zero. *)
Lemma at2_special_mask_derived tk (inputs : list (list Z)) i j :
  at2 (special_mask tk inputs None) i j
  = row ← inputs !! i;
    (fun s => negb (s =? 0)%Z) <$> get_special_tokens_mask tk row !! j.
Proof.
  cbn [special_mask]. unfold to_bool. rewrite at2_fmap. unfold at2.
  rewrite list_lookup_fmap. destruct (inputs !! i); reflexivity.
Qed.

(** C4: whenever the call runs, at every position that the provided
    [special_tokens_mask] marks (a non-zero entry), or, when none is
    provided, that the tokenizer's [get_special_tokens_mask] marks for its
    row, the returned inputs entry is the original one, the label is -100
    and the mask label has been zeroed, whatever the mask label and the
    random draws were.  With a mask that marks every position,
    [mask_labels] ends all zero, the labels are all -100 and the inputs are
    returned unchanged. *)
Theorem mask_tokens_special_positions (c : Collator) (rnd : Random)
    (b : buffers) (special_tokens_mask : option tensor) :
  runs c b special_tokens_mask →
  ∃ inputs' labels b',
    mask_tokens c rnd b special_tokens_mask = (Py.Return (inputs', labels), b')
    ∧ inputs_buf b' = inputs'
    ∧ (∀ m i j s, special_tokens_mask = Some m →
         at2 m i j = Some s → s ≠ 0%Z →
         is_Some (at2 (inputs_buf b) i j)
         ∧ at2 inputs' i j = at2 (inputs_buf b) i j
         ∧ at2 labels i j = Some (-100)%Z
         ∧ at2 (mask_labels_buf b') i j = Some 0%Z)
    ∧ (∀ i j row s, special_tokens_mask = None →
         inputs_buf b !! i = Some row →
         get_special_tokens_mask (tokenizer c) row !! j = Some s → s ≠ 0%Z →
         is_Some (at2 (inputs_buf b) i j)
         ∧ at2 inputs' i j = at2 (inputs_buf b) i j
         ∧ at2 labels i j = Some (-100)%Z
         ∧ at2 (mask_labels_buf b') i j = Some 0%Z)
    ∧ ((match special_tokens_mask with
        | Some m => ∀ i j s, at2 m i j = Some s → s ≠ 0%Z
        | None => ∀ i j row s, inputs_buf b !! i = Some row →
                    get_special_tokens_mask (tokenizer c) row !! j = Some s →
                    s ≠ 0%Z
        end) →
         inputs' = inputs_buf b
         ∧ (∀ i j l, at2 (mask_labels_buf b') i j = Some l → l = 0%Z)
         ∧ (∀ i j y, at2 labels i j = Some y → y = (-100)%Z)).
Proof.
  intros Hruns.
  destruct (mask_tokens_where_mask_true c rnd b special_tokens_mask Hruns)
    as (inputs' & labels & b' & Hcall & Hbuf & Hpos & Hall).
  exists inputs', labels, b'. split; [exact Hcall |]. split; [exact Hbuf |].
  split_and!.
  - intros m i j s -> Hs Hne. apply Hpos.
    rewrite (at2_special_mask_provided _ _ _ _ _ _ Hs).
    apply Z.eqb_neq in Hne. by rewrite Hne.
  - intros i j row s -> Hrow Hs Hne. apply Hpos.
    rewrite at2_special_mask_derived. unfold tensor in *.
    rewrite Hrow. cbn. rewrite Hs. cbn.
    apply Z.eqb_neq in Hne. by rewrite Hne.
  - intros Hmarks. apply Hall. intros i j s' Hs'.
    destruct special_tokens_mask as [m |].
    + cbn [special_mask] in Hs'. unfold to_bool in Hs'.
      rewrite at2_fmap in Hs'. apply fmap_Some in Hs' as (s & Hs & ->).
      specialize (Hmarks i j s Hs).
      apply Z.eqb_neq in Hmarks. by rewrite Hmarks.
    + rewrite at2_special_mask_derived in Hs'. unfold tensor in *.
      apply bind_Some in Hs' as (row & Hrow & Hs').
      apply fmap_Some in Hs' as (s & Hs & ->).
      specialize (Hmarks i j row s Hrow Hs).
      apply Z.eqb_neq in Hmarks. by rewrite Hmarks.
Qed.

(** C5: whenever the call runs, with random words drawn from
    [0, vocab_size), the positions replaced by the mask-token id and those
    replaced by a random word are disjoint sets of masked positions; a
    masked position is in exactly one of replaced-by-mask,
    replaced-by-random, left-unchanged; and a position outside both sets --
    every unmasked position in particular -- keeps its input id. *)
Theorem mask_tokens_three_way (c : Collator) (rnd : Random) (b : buffers)
    (special_tokens_mask : option tensor) :
  runs c b special_tokens_mask →
  (∀ i j, 0 ≤ random_words rnd i j < vocab_len (tokenizer c))%Z →
  let stm := special_mask (tokenizer c) (inputs_buf b) special_tokens_mask in
  let masked := masked_indices (mask_labels_buf b) stm in
  ∃ inputs' labels b',
    mask_tokens c rnd b special_tokens_mask = (Py.Return (inputs', labels), b')
    ∧ ∀ i j x, at2 (inputs_buf b) i j = Some x →
        ∃ m rep ran : bool,
          at2 masked i j = Some m
          ∧ at2 (indices_replaced rnd masked) i j = Some rep
          ∧ at2 (indices_random rnd masked) i j = Some ran
          ∧ (rep = true → m = true)
          ∧ (ran = true → m = true)
          ∧ ¬ (rep = true ∧ ran = true)
          ∧ (m = true →
               (rep = true ∧ ran = false)
               ∨ (rep = false ∧ ran = true)
               ∨ (rep = false ∧ ran = false))
          ∧ (rep = true → at2 inputs' i j = Some (mask_token_id (tokenizer c)))
          ∧ (ran = true →
               ∃ w, at2 inputs' i j = Some w
                    ∧ (0 ≤ w < vocab_len (tokenizer c))%Z)
          ∧ (rep = false → ran = false → at2 inputs' i j = Some x)
          ∧ (m = false → at2 inputs' i j = Some x).
Proof.
  intros Hruns Hwords stm masked.
  pose proof (mask_tokens_run c rnd b _ Hruns) as Hrun.
  cbv zeta in Hrun. eexists _, _, _. split; [exact Hrun |].
  intros i j x Hx.
  destruct (mask_tokens_entry _ _ _ _ _ _ _ i j x Hruns Hrun Hx)
    as (l & s & _ & _ & _ & Hm & Hrep & Hran & _ & Hinp & _).
  eexists _, _, _. split; [exact Hm |]. split; [exact Hrep |].
  split; [exact Hran |]. rewrite Hinp.
  destruct (negb _), (bernoulli_80 rnd i j), (bernoulli_50 rnd i j); cbn;
    split_and!; try done; try tauto; try (intros [? ?]; done);
    intros _; eexists; split; [done | apply Hwords].
Qed.

(** ** [__call__] *)

Lemma bind_Return {A B} (a : A) (k : A → Py.outcome B) :
  Py.Return a ≫= k = k a.
Proof. reflexivity. Qed.

Lemma bind_Raise {A B} (e : Py.exn) (k : A → Py.outcome B) :
  Py.Raise e ≫= k = Py.Raise e.
Proof. reflexivity. Qed.

(** C7, as the code has it: on an empty list of examples [__call__] raises
    [IndexError] (from [examples[0]]), whatever the collator, the random
    source and the collation function; it returns no batch. *)
Theorem call_empty_raises (collate : list (list Z) → Py.outcome tensor)
    (c : Collator) (rnd : Random) :
  __call__ collate c rnd [] = Py.Raise Py.IndexError.
Proof. reflexivity. Qed.

(** C8, as the code has it: for a batch of dict examples that the tokenizer
    pads, whose mask vectors collate and on which [mask_tokens] runs,
    [__call__] returns a mapping that holds [input_ids] and [labels] (the
    pair returned by [mask_tokens]) and, for every other key except
    [special_tokens_mask], what the padded batch holds under that key;
    [special_tokens_mask] has been popped and is absent from the result. *)
Theorem call_passes_keys_through (collate : list (list Z) → Py.outcome tensor)
    (c : Collator) (rnd : Random) (enc : gmap string (list Z))
    (rest : list example) (padded : gmap string tensor)
    (input_ids batch_mask : tensor) :
  let examples := ExDict enc :: rest in
  let b := {| inputs_buf := input_ids; mask_labels_buf := batch_mask |} in
  tokenizer_pad (tokenizer c) examples = Py.Return padded →
  padded !! "input_ids" = Some input_ids →
  collate (row_masks c rnd input_ids) = Py.Return batch_mask →
  runs c b (padded !! "special_tokens_mask") →
  ∃ batch inputs' labels,
    __call__ collate c rnd examples = Py.Return batch
    ∧ (mask_tokens c rnd b (padded !! "special_tokens_mask")).1
      = Py.Return (inputs', labels)
    ∧ batch !! "input_ids" = Some inputs'
    ∧ batch !! "labels" = Some labels
    ∧ batch !! "special_tokens_mask" = None
    ∧ ∀ k, k ≠ "input_ids" → k ≠ "labels" → k ≠ "special_tokens_mask" →
           batch !! k = padded !! k.
Proof.
  intros examples b Hpad Hids Hcollate Hruns.
  pose proof (mask_tokens_run c rnd b _ Hruns) as Hrun. cbv zeta in Hrun.
  unfold __call__, collate_examples. cbn [examples]. fold examples.
  rewrite Hpad, bind_Return.
  rewrite lookup_delete_ne by done. rewrite Hids. cbn [from_option].
  rewrite bind_Return, Hcollate, bind_Return. fold b.
  rewrite Hrun. cbn [fst]. rewrite bind_Return. cbn [fst snd].
  eexists _, _, _. split_and!; try reflexivity.
  - by rewrite lookup_insert_ne, lookup_insert_eq.
  - by rewrite lookup_insert_eq.
  - by rewrite !lookup_insert_ne, lookup_delete_eq.
  - intros k Hk1 Hk2 Hk3. by rewrite !lookup_insert_ne, lookup_delete_ne.
Qed.

(** ** The pad token *)

(** C10: only [cls_token] and [sep_token] are kept out of the groups.  In
    the row [[CLS] ▁the [SEP] <pad>] the pad token is a word start and gets
    a group of its own; for the shuffle that reverses the groups
    [_whole_word_mask] returns 1 at the pad position.  Whether that position
    ends up masked is then decided by [mask_tokens] alone: with the
    tokenizer's special-token mask the mask label is zeroed and the label is
    -100; with a special-token mask that leaves the pad position out, the
    position stays masked and its label is the pad id. *)
Theorem whole_word_mask_marks_pad :
  ∃ (c : Collator) (shuffle : list (list nat) → list (list nat))
    (input_tokens : list string) (pos : nat),
    let tk := tokenizer c in
    let cand := cand_indexes tk input_tokens in
    let mask_labels := _whole_word_mask c shuffle input_tokens 512 in
    cand ≡ₚ shuffle cand
    ∧ input_tokens !! pos = Some "<pad>"
    ∧ is_cls_or_sep tk "<pad>" = false
    ∧ _is_start_piece_sp "<pad>" = true
    ∧ [pos] ∈ cand
    ∧ mask_labels !! pos = Some 1%Z
    ∧ (∀ rnd, ∃ inputs' labels b',
         mask_tokens c rnd
           {| inputs_buf := Sample.padded_ids; mask_labels_buf := [mask_labels] |}
           None = (Py.Return (inputs', labels), b')
         ∧ at2 (mask_labels_buf b') 0 pos = Some 0%Z
         ∧ at2 labels 0 pos = Some (-100)%Z)
    ∧ (∀ rnd, ∃ inputs' labels b',
         mask_tokens c rnd
           {| inputs_buf := Sample.padded_ids; mask_labels_buf := [mask_labels] |}
           (Some [[1; 0; 1; 0]]%Z) = (Py.Return (inputs', labels), b')
         ∧ at2 (mask_labels_buf b') 0 pos = Some 1%Z
         ∧ at2 labels 0 pos = Some 0%Z).
Proof.
  exists Sample.collator, (@rev _), Sample.padded_tokens, 3.
  cbv zeta.
  change (cand_indexes (tokenizer Sample.collator) Sample.padded_tokens)
    with [[1]; [3]].
  change (_whole_word_mask Sample.collator (@rev _) Sample.padded_tokens 512)
    with [0; 1; 0; 1]%Z.
  split_and!; try reflexivity.
  - apply perm_swap.
  - apply list_elem_of_In. right. by left.
  - intros rnd. eexists _, _, _. split; [reflexivity |]. split; reflexivity.
  - intros rnd. eexists _, _, _. split; [reflexivity |]. split; reflexivity.
Qed.

(** * Runs on the sample collator *)

(** The groups of the sample row are [[1]] and [[2; 3]]. *)
Lemma cand_indexes_partition_sample :
  cand_indexes Sample.tok Sample.tokens = [[1]; [2; 3]]
  ∧ StronglySorted lt (concat (cand_indexes Sample.tok Sample.tokens)).
Proof.
  split; [reflexivity |].
  pose proof (cand_indexes_partition Sample.tok Sample.tokens) as H.
  cbv zeta in H. apply H.
Defined.

(** With the groups reversed and a cap of 512, all three word positions of
    the sample row are selected, and the bounds hold. *)
Lemma whole_word_mask_budget_sample :
  cand_indexes Sample.tok Sample.tokens
    ≡ₚ rev (cand_indexes Sample.tok Sample.tokens)
  ∧ _whole_word_mask Sample.collator (@rev _) Sample.tokens 512 = [0; 1; 1; 1; 0]%Z
  ∧ (Z.of_nat (count_ones (_whole_word_mask Sample.collator (@rev _) Sample.tokens 512))
     ≤ Z.min 512 (Z.max 1 5))%Z
  ∧ count_ones (_whole_word_mask Sample.collator (@rev _) Sample.tokens 512)
    ≤ count_maskable Sample.tok Sample.tokens.
Proof.
  assert (cand_indexes Sample.tok Sample.tokens
            ≡ₚ rev (cand_indexes Sample.tok Sample.tokens)) as Hperm
    by apply perm_swap.
  split; [exact Hperm |]. split; [reflexivity |].
  pose proof (whole_word_mask_budget Sample.collator (@rev _) Sample.tokens 512 Hperm) as H.
  cbv zeta in H. destruct H as (_ & Hcap & Hmaskable).
  split; [apply Hcap; lia | exact Hmaskable].
Defined.

(** C2 as stated fails for a negative cap: no position is selected, but
    zero is not at most [min (-1) _]. *)
Lemma whole_word_mask_negative_cap :
  ¬ (Z.of_nat (count_ones (_whole_word_mask Sample.collator id Sample.tokens (-1)))
     ≤ Z.min (-1) (Z.max 1 (scaled_round Sample.collator (length Sample.tokens))))%Z.
Proof. vm_compute. intros H. by apply H. Qed.

Lemma runs_sample : runs Sample.collator Sample.bufs None.
Proof. unfold runs. split_and!; reflexivity. Defined.

(** The labels of the sample batch. *)
Lemma mask_tokens_labels_sample :
  runs Sample.collator Sample.bufs None
  ∧ ∃ inputs' labels b',
      mask_tokens Sample.collator Sample.rnd Sample.bufs None
      = (Py.Return (inputs', labels), b')
      ∧ shape labels = shape Sample.ids
      ∧ ∀ i j x, at2 Sample.ids i j = Some x →
          ∃ l', at2 (mask_labels_buf b') i j = Some l'
            ∧ (l' ≠ 0%Z → at2 labels i j = Some x)
            ∧ (l' = 0%Z → at2 labels i j = Some (-100)%Z)
            ∧ (at2 labels i j ≠ Some (-100)%Z → l' ≠ 0%Z)
            ∧ (l' ≠ 0%Z → x ≠ (-100)%Z → at2 labels i j ≠ Some (-100)%Z).
Proof.
  split; [exact runs_sample |].
  exact (mask_tokens_labels Sample.collator Sample.rnd Sample.bufs None runs_sample).
Defined.

(** C3 as stated fails when an input id is -100 itself: the position is
    masked (its mask label is 1 after zeroing) and yet its label is -100. *)
Lemma mask_tokens_label_sentinel_clash :
  ∃ inputs' labels b',
    mask_tokens Sample.collator Sample.rnd
      {| inputs_buf := [[-100]]%Z; mask_labels_buf := [[1]]%Z |}
      (Some [[0]]%Z)
    = (Py.Return (inputs', labels), b')
    ∧ at2 (mask_labels_buf b') 0 0 = Some 1%Z
    ∧ ¬ (at2 labels 0 0 ≠ Some (-100)%Z).
Proof.
  eexists _, _, _. split; [reflexivity |]. split; [reflexivity |].
  intros H. by apply H.
Qed.

(** Special positions whose mask label is set.  Every position of the
    sample row is selected and the first Bernoulli draw is true at columns
    0 and 4; the provided mask marks these two columns, and the call returns
    their ids 2 and 3 with label -100.  The same holds with the tokenizer's
    own mask. *)
Lemma mask_tokens_special_positions_sample :
  let b := {| inputs_buf := Sample.ids; mask_labels_buf := [[1; 1; 1; 1; 1]]%Z |} in
  let stm := [[1; 0; 0; 0; 1]]%Z in
  runs Sample.collator b (Some stm)
  ∧ runs Sample.collator b None
  ∧ at2 (mask_labels_buf b) 0 0 = Some 1%Z
  ∧ bernoulli_80 Sample.rnd 0 0 = true
  ∧ mask_tokens Sample.collator Sample.rnd b (Some stm)
    = (Py.Return ([[2; 7; 4; 7; 3]]%Z, [[-100; 5; 6; 7; -100]]%Z),
       {| inputs_buf := [[2; 7; 4; 7; 3]]%Z;
          mask_labels_buf := [[0; 1; 1; 1; 0]]%Z |})
  ∧ (∃ inputs' labels b',
       mask_tokens Sample.collator Sample.rnd b (Some stm)
       = (Py.Return (inputs', labels), b')
       ∧ at2 inputs' 0 0 = Some 2%Z
       ∧ at2 labels 0 0 = Some (-100)%Z
       ∧ at2 (mask_labels_buf b') 0 0 = Some 0%Z
       ∧ at2 inputs' 0 4 = Some 3%Z
       ∧ at2 labels 0 4 = Some (-100)%Z)
  ∧ (∃ inputs' labels b',
       mask_tokens Sample.collator Sample.rnd b None
       = (Py.Return (inputs', labels), b')
       ∧ at2 inputs' 0 0 = Some 2%Z
       ∧ at2 labels 0 0 = Some (-100)%Z
       ∧ at2 (mask_labels_buf b') 0 0 = Some 0%Z).
Proof.
  intros b stm.
  assert (runs Sample.collator b (Some stm)) as Hruns
    by (unfold runs; split_and!; reflexivity).
  assert (runs Sample.collator b None) as Hruns'
    by (unfold runs; split_and!; reflexivity).
  split; [exact Hruns |]. split; [exact Hruns' |].
  split; [reflexivity |]. split; [reflexivity |]. split; [reflexivity |].
  split.
  - destruct (mask_tokens_special_positions Sample.collator Sample.rnd b
                (Some stm) Hruns)
      as (inputs' & labels & b' & Hcall & _ & Hpos & _).
    exists inputs', labels, b'. split; [exact Hcall |].
    destruct (Hpos stm 0 0 1%Z eq_refl eq_refl) as (_ & Hin0 & Hlab0 & Hml0);
      [discriminate |].
    destruct (Hpos stm 0 4 1%Z eq_refl eq_refl) as (_ & Hin4 & Hlab4 & _);
      [discriminate |].
    split_and!; done.
  - destruct (mask_tokens_special_positions Sample.collator Sample.rnd b
                None Hruns')
      as (inputs' & labels & b' & Hcall & _ & _ & Hpos & _).
    exists inputs', labels, b'. split; [exact Hcall |].
    destruct (Hpos 0 0 [2; 5; 6; 7; 3]%Z 1%Z eq_refl eq_refl eq_refl)
      as (_ & Hin0 & Hlab0 & Hml0); [discriminate |].
    split_and!; done.
Defined.

(** The three-way split on the sample batch. *)
Lemma mask_tokens_three_way_sample :
  runs Sample.collator Sample.bufs None
  ∧ (∀ i j, 0 ≤ random_words Sample.rnd i j < vocab_len Sample.tok)%Z
  ∧ ∃ inputs' labels b',
      mask_tokens Sample.collator Sample.rnd Sample.bufs None
      = (Py.Return (inputs', labels), b')
      ∧ inputs' = [[2; 7; 4; 7; 3]]%Z.
Proof.
  assert (∀ i j, 0 ≤ random_words Sample.rnd i j < vocab_len Sample.tok)%Z
    as Hwords by (intros i j; simpl; lia).
  split; [exact runs_sample |]. split; [exact Hwords |].
  destruct (mask_tokens_three_way Sample.collator Sample.rnd Sample.bufs None
              runs_sample Hwords)
    as (inputs' & labels & b' & Hcall & _).
  exists inputs', labels, b'. split; [exact Hcall |].
  vm_compute in Hcall. by injection Hcall as <- _ _.
Defined.

(** C7 as stated fails: the sample collator returns nothing on the empty
    list. *)
Lemma call_empty_no_result :
  ¬ ∃ batch,
      __call__ Sample.stack Sample.collator Sample.rnd [] = Py.Return batch.
Proof. intros [batch H]. discriminate H. Qed.

(** The sample batch through [__call__]. *)
Lemma call_passes_keys_through_sample :
  tokenizer_pad Sample.tok Sample.examples = Py.Return Sample.padded
  ∧ ∃ batch,
      __call__ Sample.stack Sample.collator Sample.rnd Sample.examples
      = Py.Return batch
      ∧ batch !! "input_ids" = Some [[2; 7; 4; 7; 3]]%Z
      ∧ batch !! "labels" = Some [[-100; 5; 6; 7; -100]]%Z
      ∧ batch !! "attention_mask" = Some [[1; 1; 1; 1; 1]]%Z.
Proof.
  assert (tokenizer_pad Sample.tok Sample.examples = Py.Return Sample.padded)
    as Hpad by (vm_compute; reflexivity).
  split; [exact Hpad |].
  destruct (call_passes_keys_through Sample.stack Sample.collator Sample.rnd
              _ [] Sample.padded Sample.ids Sample.word_mask Hpad)
    as (batch & inputs' & labels & Hcall & Hmt & Hin & Hlab & _ & Hother).
  - reflexivity.
  - reflexivity.
  - unfold runs. split_and!; reflexivity.
  - exists batch. split; [exact Hcall |].
    vm_compute in Hmt. injection Hmt as <- <-.
    split_and!; [exact Hin | exact Hlab |].
    rewrite Hother by done. reflexivity.
Defined.

(** C8 as stated fails: the padded sample batch holds a
    [special_tokens_mask], the returned mapping does not. *)
Lemma call_drops_special_tokens_mask :
  ∃ batch,
    tokenizer_pad Sample.tok Sample.examples = Py.Return Sample.padded
    ∧ __call__ Sample.stack Sample.collator Sample.rnd Sample.examples
      = Py.Return batch
    ∧ is_Some (Sample.padded !! "special_tokens_mask")
    ∧ batch !! "special_tokens_mask" = None.
Proof.
  eexists. split; [vm_compute; reflexivity |].
  split; [vm_compute; reflexivity |].
  split; [by eexists | reflexivity].
Qed.

(** With [mlm] off the sample call raises at once. *)
Lemma mask_tokens_assertion_sample :
  mlm Sample.collator_no_mlm = false
  ∧ mask_tokens Sample.collator_no_mlm Sample.rnd Sample.bufs None
    = (Py.Raise Py.AssertionError, Sample.bufs).
Proof.
  split; [reflexivity |].
  apply (mask_tokens_assertion Sample.collator_no_mlm Sample.rnd Sample.bufs None).
  reflexivity.
Defined.

(** * Further properties *)

(** ** The word-start classifier, case by case *)

(** X1: a token is a word start exactly when it begins with the marker,
    begins with "<", or is a single character of the punctuation literal.
    The two [bytes] entries of [special_pieces] add no case. *)
Theorem is_start_piece_sp_cases (piece : string) :
  _is_start_piece_sp piece = true ↔
    Py.startswith piece sp_marker = true
    ∨ Py.startswith piece "<" = true
    ∨ ∃ c : ascii, piece = String c EmptyString
                   ∧ c ∈ list_ascii_of_string punct_literal.
Proof.
  rewrite is_start_piece_sp_unfold, !orb_true_iff.
  unfold Py.mem. rewrite bool_decide_eq_true, str_in_special_pieces.
  unfold Py.chars. rewrite list_elem_of_fmap.
  split.
  - intros [[H | H] | (c & [= ->] & Hc)]; eauto.
  - intros [H | [H | (c & -> & Hc)]]; eauto.
Qed.

(** ** The shape of a group *)

(** The grouping loop keeps the groups built so far word-shaped. *)
Lemma group_loop_structure tk tokens : ∀ pre cand,
  word_groups (pre ++ tokens) cand →
  word_groups (pre ++ tokens) (group_loop tk (length pre) tokens cand).
Proof.
  induction tokens as [| token rest IH]; intros pre cand Hinv; [done |].
  set (all := pre ++ token :: rest) in *.
  pose proof (IH (pre ++ [token])) as IH'.
  rewrite length_app in IH'. simpl in IH'. rewrite Nat.add_1_r in IH'.
  rewrite <- (app_assoc pre [token] rest) in IH'. simpl in IH'. fold all in IH'.
  assert (Htok : all !! length pre = Some token)
    by (unfold all; by rewrite list_lookup_middle).
  cbn [group_loop]. destruct (is_cls_or_sep tk token); [by apply IH' |].
  destruct (_ && _) eqn:Hcont; apply IH'; intros k g Hk.
  - apply andb_true_iff in Hcont as [_ Hns%negb_true_iff].
    destruct (decide (k = length cand - 1)) as [-> | Hne].
    + rewrite list_lookup_alter_eq in Hk.
      destruct (cand !! (length cand - 1)) as [g0 |] eqn:Hg0; [| done].
      injection Hk as <-. destruct (Hinv _ _ Hg0) as (Hne0 & Htail & Hhead).
      split_and!.
      * by destruct g0.
      * intros p idx t Hp Ht.
        destruct (decide (S p < length g0)) as [Hlt | Hge].
        -- rewrite lookup_app_l in Hp by done. eauto.
        -- rewrite lookup_app_r in Hp by lia.
           destruct (S p - length g0) as [| n] eqn:Hn; [| done].
           injection Hp as <-. congruence.
      * intros Hpos idx t Hp Ht. destruct g0 as [| i0 g0]; [done |]. eauto.
    + rewrite list_lookup_alter_ne in Hk by done. by apply Hinv.
  - destruct (decide (k < length cand)) as [Hlt | Hge].
    + rewrite lookup_app_l in Hk by done. by apply Hinv.
    + rewrite lookup_app_r in Hk by lia.
      destruct (k - length cand) as [| n] eqn:Hn; [| done].
      injection Hk as <-. split_and!; [done | done |].
      intros Hpos idx t [= <-] Ht.
      rewrite Htok in Ht. injection Ht as <-.
      apply andb_false_iff in Hcont as [Hlen | Hsp].
      * apply Nat.leb_gt in Hlen. lia.
      * by apply negb_false_iff in Hsp.
Qed.

(** X2: in every group of [cand_indexes] the indexes after the first hold
    continuation pieces, and the first index of every group except the
    very first holds a word-start piece: a group is one word start (or the
    leading tokens of the row) followed by its continuation pieces. *)
Theorem cand_indexes_word_structure (tk : Tokenizer)
    (input_tokens : list string) (k : nat) (g : list nat) :
  cand_indexes tk input_tokens !! k = Some g →
  g ≠ []
  ∧ (∀ p idx t, g !! S p = Some idx → input_tokens !! idx = Some t →
       _is_start_piece_sp t = false)
  ∧ (0 < k → ∀ idx t, g !! 0 = Some idx → input_tokens !! idx = Some t →
       _is_start_piece_sp t = true).
Proof.
  apply (group_loop_structure tk input_tokens [] []). by intros [| ?] ?.
Qed.

Lemma cand_indexes_word_structure_sample :
  cand_indexes Sample.tok Sample.tokens !! 1 = Some [2; 3]
  ∧ _is_start_piece_sp "▁quick" = true
  ∧ _is_start_piece_sp "fox" = false.
Proof.
  assert (cand_indexes Sample.tok Sample.tokens !! 1 = Some [2; 3]) as Hk
    by reflexivity.
  split; [exact Hk |].
  destruct (cand_indexes_word_structure Sample.tok Sample.tokens 1 [2; 3] Hk)
    as (_ & Htail & Hhead).
  split.
  - by apply (Hhead (Nat.lt_0_1) 2 "▁quick").
  - by apply (Htail 0 3 "fox").
Defined.

(** ** The selected vector, position by position *)

Lemma marks_add N (st : gset nat * list Z) (index : nat) :
  index < N → marks N st →
  marks N ({[index]} ∪ st.1, <[index := 1%Z]> st.2).
Proof.
  destruct st as [covered m]. intros Hlt (Hlen & Hrange & Hat). cbn [fst snd] in *.
  split_and!; cbn [fst snd].
  - by rewrite length_insert.
  - intros i [->%elem_of_singleton | Hi]%elem_of_union; auto.
  - intros i Hi. destruct (decide (i = index)) as [-> | Hne].
    + rewrite list_lookup_insert_eq by lia.
      rewrite bool_decide_eq_true_2; [done |].
      apply elem_of_union_l. by apply elem_of_singleton.
    + rewrite list_lookup_insert_ne by done. rewrite (Hat i Hi).
      f_equal. apply (f_equal (fun b : bool => if b then 1%Z else 0%Z)).
      apply bool_decide_ext. rewrite elem_of_union, elem_of_singleton. tauto.
Qed.

Lemma cover_marks N index_set : ∀ st,
  Forall (fun i => i < N) index_set → marks N st → marks N (cover index_set st).
Proof.
  unfold cover. induction index_set as [| index rest IH];
    intros [covered m] Hin H; cbn [fold_left]; [done |].
  apply Forall_cons in Hin as [Hlt Hrest].
  apply IH; [done |]. by apply (marks_add N (covered, m)).
Qed.

Lemma select_loop_marks N n groups : ∀ st,
  Forall (Forall (fun i => i < N)) groups →
  marks N st → marks N (select_loop n groups st).
Proof.
  induction groups as [| g rest IH]; intros st Hin H; cbn [select_loop];
    [done |].
  apply Forall_cons in Hin as [Hg Hrest].
  repeat case_match; auto using cover_marks.
Qed.

Lemma marks_init (N : nat) : marks N (∅, replicate N 0%Z).
Proof.
  split_and!; cbn [fst snd].
  - apply length_replicate.
  - intros i Hi. by apply not_elem_of_empty in Hi.
  - intros i Hi. rewrite lookup_replicate_2 by done.
    by rewrite bool_decide_eq_false_2 by apply not_elem_of_empty.
Qed.

(** A group of [cand_indexes] holds maskable positions only. *)
Lemma cand_indexes_maskable tk tokens g i :
  g ∈ cand_indexes tk tokens → i ∈ g → maskable tk tokens i.
Proof.
  intros Hg Hi.
  assert (i ∈ concat (cand_indexes tk tokens)) as Hin.
  { apply list_elem_of_In, in_concat. exists g. by rewrite <- !list_elem_of_In. }
  rewrite cand_indexes_concat in Hin.
  by apply list_elem_of_filter in Hin as [? _].
Qed.

Lemma maskable_lt tk tokens i : maskable tk tokens i → i < length tokens.
Proof. intros (t & Ht & _). by eapply lookup_lt_Some. Qed.

Lemma maskable_not_special tk tokens i t :
  tokens !! i = Some t → maskable tk tokens i ↔ is_cls_or_sep tk t = false.
Proof.
  intros Ht. unfold maskable. rewrite is_cls_or_sep_false, Ht.
  split; [by intros (t' & [= <-] & H) | eauto].
Qed.

(** Two groups of [cand_indexes] that share a position are one group. *)
Lemma cand_indexes_disjoint tk tokens g g' x :
  g ∈ cand_indexes tk tokens → g' ∈ cand_indexes tk tokens →
  x ∈ g → x ∈ g' → g = g'.
Proof.
  intros [k Hk]%list_elem_of_lookup [k' Hk']%list_elem_of_lookup Hx Hx'.
  pose proof (NoDup_concat_lookup_inj _ x k k' g g'
                (cand_indexes_NoDup tk tokens) Hk Hk' Hx Hx') as <-.
  congruence.
Qed.

(** The state in which [_whole_word_mask] leaves the selection loop. *)
Lemma whole_word_mask_state c shuffle tokens max_predictions :
  cand_indexes (tokenizer c) tokens ≡ₚ shuffle (cand_indexes (tokenizer c) tokens) →
  let st := select_loop (num_to_predict c tokens max_predictions)
              (shuffle (cand_indexes (tokenizer c) tokens))
              (∅, replicate (length tokens) 0%Z) in
  _whole_word_mask c shuffle tokens max_predictions = st.2
  ∧ marks (length tokens) st
  ∧ ∀ i, i ∈ st.1 → maskable (tokenizer c) tokens i.
Proof.
  intros Hperm st. split; [done |].
  assert (Hin : ∀ g, g ∈ shuffle (cand_indexes (tokenizer c) tokens) →
                     g ∈ cand_indexes (tokenizer c) tokens).
  { intros g Hg. by rewrite Hperm. }
  split.
  - apply select_loop_marks; [| apply marks_init].
    apply Forall_forall. intros g Hg. apply Forall_forall. intros i Hi.
    eapply maskable_lt, cand_indexes_maskable; eauto.
  - intros i Hi. apply select_loop_subset in Hi. cbn [fst] in Hi.
    apply elem_of_union in Hi as [Hi | Hi]; [by apply not_elem_of_empty in Hi |].
    apply elem_of_list_to_set, list_elem_of_In, in_concat in Hi
      as (g & Hg%list_elem_of_In & Hig%list_elem_of_In).
    eapply cand_indexes_maskable; eauto.
Qed.

(** X3: for every outcome of the shuffle the returned vector has one entry
    per token, every entry is 0 or 1, and the entry of a [cls_token] or
    [sep_token] position is 0. *)
Theorem whole_word_mask_wellformed (c : Collator)
    (shuffle : list (list nat) → list (list nat))
    (input_tokens : list string) (max_predictions : Z) :
  cand_indexes (tokenizer c) input_tokens
    ≡ₚ shuffle (cand_indexes (tokenizer c) input_tokens) →
  let v := _whole_word_mask c shuffle input_tokens max_predictions in
  length v = length input_tokens
  ∧ (∀ i x, v !! i = Some x → x = 0%Z ∨ x = 1%Z)
  ∧ (∀ i t, input_tokens !! i = Some t →
       is_cls_or_sep (tokenizer c) t = true → v !! i = Some 0%Z).
Proof.
  intros Hperm v.
  destruct (whole_word_mask_state c shuffle input_tokens max_predictions Hperm)
    as (Hv & (Hlen & Hrange & Hat) & Hmaskable).
  fold v in Hv. rewrite Hv. split_and!.
  - done.
  - intros i x Hx. pose proof (lookup_lt_Some _ _ _ Hx) as Hlt.
    rewrite Hlen in Hlt. rewrite (Hat i Hlt) in Hx. injection Hx as <-.
    case_bool_decide; auto.
  - intros i t Ht Hsp. rewrite (Hat i) by (by eapply lookup_lt_Some).
    rewrite bool_decide_eq_false_2; [done |].
    intros Hi%Hmaskable. apply (maskable_not_special _ _ _ _ Ht) in Hi.
    congruence.
Qed.

Lemma whole_word_mask_wellformed_sample :
  cand_indexes Sample.tok Sample.tokens
    ≡ₚ rev (cand_indexes Sample.tok Sample.tokens)
  ∧ length (_whole_word_mask Sample.collator (@rev _) Sample.tokens 2) = 5
  ∧ _whole_word_mask Sample.collator (@rev _) Sample.tokens 2 !! 0 = Some 0%Z.
Proof.
  assert (cand_indexes Sample.tok Sample.tokens
            ≡ₚ rev (cand_indexes Sample.tok Sample.tokens)) as Hperm
    by apply perm_swap.
  split; [exact Hperm |].
  destruct (whole_word_mask_wellformed Sample.collator (@rev _) Sample.tokens 2 Hperm)
    as (Hlen & _ & Hsp).
  split; [exact Hlen |]. by apply (Hsp 0 "[CLS]").
Defined.

(** ** Whole words *)

Lemma whole_union (covered : gset nat) (g0 g : list nat) :
  (g = g0 ∨ ∀ x, x ∈ g → x ∉ g0) →
  whole covered g → whole (list_to_set g0 ∪ covered) g.
Proof.
  intros [-> | Hdisj] [Hin | Hout].
  - left. intros x Hx. apply elem_of_union_r. auto.
  - left. intros x Hx. apply elem_of_union_l. by apply elem_of_list_to_set.
  - left. intros x Hx. apply elem_of_union_r. auto.
  - right. intros x Hx [Hx0%elem_of_list_to_set | Hc]%elem_of_union.
    + by eapply Hdisj.
    + by eapply Hout.
Qed.

(** Among pairwise disjoint groups, the loop keeps every group wholly
    inside or wholly outside the covered set. *)
Lemma select_loop_whole n (G : list (list nat)) groups : ∀ st,
  (∀ g g' x, g ∈ G → g' ∈ G → x ∈ g → x ∈ g' → g = g') →
  (∀ g, g ∈ groups → g ∈ G) →
  (∀ g, g ∈ G → whole st.1 g) →
  ∀ g, g ∈ G → whole (select_loop n groups st).1 g.
Proof.
  induction groups as [| g0 rest IH]; intros st Hdisj Hsub Hst;
    cbn [select_loop]; [done |].
  assert (Hrest : ∀ g, g ∈ rest → g ∈ G).
  { intros g Hg. apply Hsub. by apply list_elem_of_further. }
  repeat case_match; auto.
  apply IH; [done | done |]. intros g Hg. rewrite cover_covered.
  apply whole_union; [| by apply Hst].
  destruct (decide (g = g0)) as [-> | Hne]; [by left | right].
  intros x Hx Hx0. apply Hne.
  apply (Hdisj g g0 x); [done | | done | done].
  apply Hsub, list_elem_of_here.
Qed.

(** X4: whole-word masking.  For every outcome of the shuffle, each group
    of [cand_indexes] is masked as a whole or not at all: its positions all
    hold 1 in the returned vector, or all hold 0. *)
Theorem whole_word_mask_whole_words (c : Collator)
    (shuffle : list (list nat) → list (list nat))
    (input_tokens : list string) (max_predictions : Z) (g : list nat) :
  cand_indexes (tokenizer c) input_tokens
    ≡ₚ shuffle (cand_indexes (tokenizer c) input_tokens) →
  g ∈ cand_indexes (tokenizer c) input_tokens →
  let v := _whole_word_mask c shuffle input_tokens max_predictions in
  (∀ i, i ∈ g → v !! i = Some 1%Z) ∨ (∀ i, i ∈ g → v !! i = Some 0%Z).
Proof.
  intros Hperm Hg v.
  destruct (whole_word_mask_state c shuffle input_tokens max_predictions Hperm)
    as (Hv & (Hlen & Hrange & Hat) & _).
  fold v in Hv. rewrite Hv.
  assert (Hlt : ∀ i, i ∈ g → i < length input_tokens).
  { intros i Hi. eapply maskable_lt, cand_indexes_maskable; eauto. }
  destruct (select_loop_whole (num_to_predict c input_tokens max_predictions)
              (cand_indexes (tokenizer c) input_tokens)
              (shuffle (cand_indexes (tokenizer c) input_tokens))
              (∅, replicate (length input_tokens) 0%Z)) with (g := g)
    as [Hin | Hout].
  - intros g1 g2 x. apply cand_indexes_disjoint.
  - intros g1 Hg1. by rewrite Hperm.
  - intros g1 _. right. intros x _. apply not_elem_of_empty.
  - done.
  - left. intros i Hi. rewrite (Hat i (Hlt i Hi)).
    by rewrite bool_decide_eq_true_2 by auto.
  - right. intros i Hi. rewrite (Hat i (Hlt i Hi)).
    by rewrite bool_decide_eq_false_2 by auto.
Qed.

Lemma whole_word_mask_whole_words_sample :
  cand_indexes Sample.tok Sample.tokens
    ≡ₚ rev (cand_indexes Sample.tok Sample.tokens)
  ∧ [2; 3] ∈ cand_indexes Sample.tok Sample.tokens
  ∧ let v := _whole_word_mask Sample.collator (@rev _) Sample.tokens 2 in
    (∀ i, i ∈ [2; 3] → v !! i = Some 1%Z) ∨ (∀ i, i ∈ [2; 3] → v !! i = Some 0%Z).
Proof.
  assert (cand_indexes Sample.tok Sample.tokens
            ≡ₚ rev (cand_indexes Sample.tok Sample.tokens)) as Hperm
    by apply perm_swap.
  assert ([2; 3] ∈ cand_indexes Sample.tok Sample.tokens) as Hg
    by (apply list_elem_of_In; right; left; reflexivity).
  split; [exact Hperm |]. split; [exact Hg |].
  exact (whole_word_mask_whole_words Sample.collator (@rev _) Sample.tokens 2
           [2; 3] Hperm Hg).
Defined.

(** ** Enough budget *)

Lemma Permutation_concat (l k : list (list nat)) :
  l ≡ₚ k → concat l ≡ₚ concat k.
Proof.
  induction 1 as [| x l k _ IH | x y l | l k m _ IH1 _ IH2]; simpl.
  - done.
  - by rewrite IH.
  - by rewrite !app_assoc, (Permutation_app_comm y x).
  - by etrans.
Qed.

(** When everything on offer fits, the loop takes every group. *)
Lemma select_loop_all n groups : ∀ st,
  Forall (fun g => g ≠ []) groups →
  NoDup (concat groups) →
  (∀ x, x ∈ concat groups → x ∉ st.1) →
  (Z.of_nat (size st.1 + length (concat groups)) ≤ n)%Z →
  (select_loop n groups st).1 = st.1 ∪ list_to_set (concat groups).
Proof.
  induction groups as [| g rest IH]; intros st Hne Hnd Hfresh Hfit;
    cbn [select_loop concat].
  - by rewrite list_to_set_nil, (right_id_L ∅ (∪)).
  - apply Forall_cons in Hne as [Hg Hne].
    cbn [concat] in Hnd, Hfresh, Hfit.
    apply NoDup_app in Hnd as (Hndg & Hgrest & Hndrest).
    rewrite length_app in Hfit.
    assert (0 < length g) by (destruct g; [done | simpl; lia]).
    rewrite bool_decide_eq_false_2 by lia.
    rewrite bool_decide_eq_false_2 by lia.
    assert (existsb (fun index => bool_decide (index ∈ st.1)) g = false) as ->.
    { apply not_true_is_false. intros (x & Hx & Hc)%existsb_exists.
      apply bool_decide_eq_true in Hc.
      eapply Hfresh; [| done]. apply elem_of_app. left. by apply list_elem_of_In. }
    rewrite IH; [| done | done | |].
    + rewrite cover_covered, list_to_set_app_L.
      apply set_eq. intros y. rewrite !elem_of_union. tauto.
    + intros x Hx. rewrite cover_covered.
      intros [Hxg%elem_of_list_to_set | Hc]%elem_of_union.
      * by eapply Hgrest.
      * eapply Hfresh; [| done]. apply elem_of_app. by right.
    + rewrite cover_covered, size_union.
      * rewrite size_list_to_set by done. lia.
      * intros x Hxg%elem_of_list_to_set Hc.
        eapply Hfresh; [| done]. apply elem_of_app. by left.
Qed.

(** X5: when the budget covers every maskable token
    ([num_to_predict] is at least their number), the returned vector is the
    same for every outcome of the shuffle: 0 at [cls_token] and [sep_token]
    positions and 1 everywhere else. *)
Theorem whole_word_mask_full_budget (c : Collator)
    (shuffle : list (list nat) → list (list nat))
    (input_tokens : list string) (max_predictions : Z) :
  cand_indexes (tokenizer c) input_tokens
    ≡ₚ shuffle (cand_indexes (tokenizer c) input_tokens) →
  (Z.of_nat (count_maskable (tokenizer c) input_tokens)
   ≤ num_to_predict c input_tokens max_predictions)%Z →
  _whole_word_mask c shuffle input_tokens max_predictions
  = (fun t => if is_cls_or_sep (tokenizer c) t then 0%Z else 1%Z) <$> input_tokens.
Proof.
  intros Hperm Hfit.
  destruct (whole_word_mask_state c shuffle input_tokens max_predictions Hperm)
    as (Hv & (Hlen & Hrange & Hat) & Hmaskable).
  rewrite Hv. clear Hv.
  set (cand := cand_indexes (tokenizer c) input_tokens) in *.
  pose proof (Permutation_concat _ _ Hperm) as Hcat.
  assert (Hcov : (select_loop (num_to_predict c input_tokens max_predictions)
                    (shuffle cand) (∅, replicate (length input_tokens) 0%Z)).1
                 = ∅ ∪ list_to_set (concat (shuffle cand))).
  { apply select_loop_all.
    - rewrite <- Hperm. apply group_loop_nonempty. constructor.
    - rewrite <- Hcat. apply cand_indexes_NoDup.
    - intros x _. apply not_elem_of_empty.
    - cbn [fst]. rewrite size_empty, <- Hcat. unfold cand.
      rewrite cand_indexes_total_length. lia. }
  apply list_eq. intros i. rewrite list_lookup_fmap.
  destruct (input_tokens !! i) as [t |] eqn:Ht; simpl.
  - rewrite (Hat i) by (by eapply lookup_lt_Some). f_equal.
    destruct (is_cls_or_sep (tokenizer c) t) eqn:Hsp.
    + rewrite bool_decide_eq_false_2; [done |].
      intros Hi%Hmaskable. apply (maskable_not_special _ _ _ _ Ht) in Hi.
      congruence.
    + rewrite bool_decide_eq_true_2; [done |].
      rewrite Hcov. apply elem_of_union_r, elem_of_list_to_set.
      rewrite <- Hcat. unfold cand. rewrite cand_indexes_concat.
      apply list_elem_of_filter. split.
      * by apply (maskable_not_special _ _ _ _ Ht).
      * apply elem_of_seq. apply lookup_lt_Some in Ht. lia.
  - apply lookup_ge_None. rewrite Hlen. by apply lookup_ge_None.
Qed.

Lemma whole_word_mask_full_budget_sample :
  cand_indexes Sample.tok Sample.tokens
    ≡ₚ rev (cand_indexes Sample.tok Sample.tokens)
  ∧ _whole_word_mask Sample.collator (@rev _) Sample.tokens 512
    = [0; 1; 1; 1; 0]%Z.
Proof.
  assert (cand_indexes Sample.tok Sample.tokens
            ≡ₚ rev (cand_indexes Sample.tok Sample.tokens)) as Hperm
    by apply perm_swap.
  split; [exact Hperm |].
  rewrite (whole_word_mask_full_budget Sample.collator (@rev _) Sample.tokens
             512 Hperm); [reflexivity |].
  vm_compute. discriminate.
Defined.

(** ** When anything is masked at all *)

Lemma select_loop_mono n groups : ∀ st x,
  x ∈ st.1 → x ∈ (select_loop n groups st).1.
Proof.
  induction groups as [| g rest IH]; intros st x Hx; cbn [select_loop];
    [done |].
  repeat case_match; auto.
  apply IH. rewrite cover_covered. by apply elem_of_union_r.
Qed.

(** Whatever the loop adds comes from a group that fits the budget. *)
Lemma select_loop_from_fitting n groups : ∀ st x,
  x ∈ (select_loop n groups st).1 →
  x ∈ st.1 ∨ ∃ g, g ∈ groups ∧ x ∈ g ∧ (Z.of_nat (length g) ≤ n)%Z.
Proof.
  induction groups as [| g0 rest IH]; intros st x Hx; cbn [select_loop] in Hx;
    [by left |].
  assert (Hlift : x ∈ st.1 ∨ (∃ g, g ∈ rest ∧ x ∈ g ∧ (Z.of_nat (length g) ≤ n)%Z) →
                  x ∈ st.1 ∨ ∃ g, g ∈ g0 :: rest ∧ x ∈ g ∧ (Z.of_nat (length g) ≤ n)%Z).
  { intros [? | (g & Hg & ?)]; [by left | right].
    exists g. split; [by apply list_elem_of_further | done]. }
  destruct (bool_decide (n ≤ _)%Z) eqn:Hbreak; [by left |].
  destruct (bool_decide (n < _)%Z) eqn:Hskip; [by apply Hlift, IH |].
  destruct (existsb _ g0); [by apply Hlift, IH |].
  apply IH in Hx as [Hx | Hx]; [| by apply Hlift; right].
  rewrite cover_covered in Hx.
  apply elem_of_union in Hx as [Hx%elem_of_list_to_set | Hx]; [| by left].
  right. exists g0. split; [apply list_elem_of_here |]. split; [done |].
  apply bool_decide_eq_false in Hskip. lia.
Qed.

(** Starting from nothing, the first group that fits is taken. *)
Lemma select_loop_first_fit n groups : ∀ m,
  Forall (fun g => g ≠ []) groups →
  (∃ g, g ∈ groups ∧ (Z.of_nat (length g) ≤ n)%Z) →
  ∃ x, x ∈ (select_loop n groups (∅, m)).1.
Proof.
  induction groups as [| g0 rest IH]; intros m Hne (g & Hg & Hfit);
    [by apply elem_of_nil in Hg |].
  apply Forall_cons in Hne as [Hg0 Hne].
  assert (0 < length g) as Hpos.
  { apply elem_of_cons in Hg as [-> | Hg].
    - destruct g0; [done | simpl; lia].
    - rewrite Forall_forall in Hne. specialize (Hne g Hg).
      destruct g; [done | simpl; lia]. }
  cbn [select_loop fst]. rewrite size_empty.
  rewrite bool_decide_eq_false_2 by lia.
  destruct (bool_decide (n < _)%Z) eqn:Hskip.
  - apply bool_decide_eq_true in Hskip. apply IH; [done |].
    exists g. split; [| done].
    apply elem_of_cons in Hg as [-> | Hg]; [lia | done].
  - destruct (existsb _ g0) eqn:Hex.
    { apply existsb_exists in Hex as (x & _ & Hc).
      apply bool_decide_eq_true in Hc. by apply not_elem_of_empty in Hc. }
    destruct g0 as [| x0 g0]; [done |]. exists x0.
    apply select_loop_mono. rewrite cover_covered.
    apply elem_of_union_l, elem_of_list_to_set, list_elem_of_here.
Qed.

(** X6: for every outcome of the shuffle, the returned vector holds a 1
    somewhere exactly when some group of [cand_indexes] is no longer than
    [num_to_predict]; a row whose every word is longer than the budget
    (or whose budget is not positive) comes back all zero. *)
Theorem whole_word_mask_some_masked (c : Collator)
    (shuffle : list (list nat) → list (list nat))
    (input_tokens : list string) (max_predictions : Z) :
  cand_indexes (tokenizer c) input_tokens
    ≡ₚ shuffle (cand_indexes (tokenizer c) input_tokens) →
  let v := _whole_word_mask c shuffle input_tokens max_predictions in
  (∃ i, v !! i = Some 1%Z) ↔
  ∃ g, g ∈ cand_indexes (tokenizer c) input_tokens
       ∧ (Z.of_nat (length g) ≤ num_to_predict c input_tokens max_predictions)%Z.
Proof.
  intros Hperm v.
  destruct (whole_word_mask_state c shuffle input_tokens max_predictions Hperm)
    as (Hv & (Hlen & Hrange & Hat) & _).
  fold v in Hv. rewrite Hv. split.
  - intros [i Hi]. pose proof (lookup_lt_Some _ _ _ Hi) as Hlt.
    rewrite Hlen in Hlt. rewrite (Hat i Hlt) in Hi.
    case_bool_decide as Hcov; [| done].
    apply select_loop_from_fitting in Hcov as [Hc | (g & Hg & _ & Hfit)].
    + by apply not_elem_of_empty in Hc.
    + exists g. split; [by rewrite Hperm | done].
  - intros (g & Hg & Hfit).
    destruct (select_loop_first_fit
                (num_to_predict c input_tokens max_predictions)
                (shuffle (cand_indexes (tokenizer c) input_tokens))
                (replicate (length input_tokens) 0%Z)) as [x Hx].
    + rewrite <- Hperm. apply group_loop_nonempty. constructor.
    + exists g. split; [by rewrite <- Hperm | done].
    + exists x. rewrite (Hat x (Hrange x Hx)).
      by rewrite bool_decide_eq_true_2.
Qed.

Lemma whole_word_mask_some_masked_sample :
  cand_indexes Sample.tok Sample.tokens
    ≡ₚ rev (cand_indexes Sample.tok Sample.tokens)
  ∧ ∃ i, _whole_word_mask Sample.collator (@rev _) Sample.tokens 1 !! i
         = Some 1%Z.
Proof.
  assert (cand_indexes Sample.tok Sample.tokens
            ≡ₚ rev (cand_indexes Sample.tok Sample.tokens)) as Hperm
    by apply perm_swap.
  split; [exact Hperm |].
  apply (whole_word_mask_some_masked Sample.collator (@rev _) Sample.tokens 1 Hperm).
  exists [1]. split; [apply list_elem_of_here |]. vm_compute. discriminate.
Defined.

(** ** More on [mask_tokens] *)

Lemma tensor_ext_Some {A} (a b : list (list A)) :
  shape a = shape b →
  (∀ i j x, at2 b i j = Some x → at2 a i j = Some x) → a = b.
Proof.
  intros Hs Hat. apply tensor_ext; [done |]. intros i j.
  destruct (at2 b i j) as [x |] eqn:Hb; [by apply Hat |].
  destruct (at2 a i j) as [y |] eqn:Ha; [| done].
  destruct (at2_same_shape a b i j y Hs Ha) as [x Hx]. congruence.
Qed.

(** X7: nothing is lost.  Whenever the call runs, the original input id of
    every position can be read back from what the call leaves: it is the
    label where the zeroed mask label is non-zero, and the returned input
    where it is 0. *)
Theorem mask_tokens_original_recoverable (c : Collator) (rnd : Random)
    (b : buffers) (special_tokens_mask : option tensor) :
  runs c b special_tokens_mask →
  ∃ inputs' labels b',
    mask_tokens c rnd b special_tokens_mask = (Py.Return (inputs', labels), b')
    ∧ ∀ i j x, at2 (inputs_buf b) i j = Some x →
        ∃ l' inp lab,
          at2 (mask_labels_buf b') i j = Some l'
          ∧ at2 inputs' i j = Some inp
          ∧ at2 labels i j = Some lab
          ∧ x = (if (l' =? 0)%Z then inp else lab).
Proof.
  intros Hruns. pose proof (mask_tokens_run c rnd b _ Hruns) as Hrun.
  cbv zeta in Hrun. eexists _, _, _. split; [exact Hrun |].
  intros i j x Hx.
  destruct (mask_tokens_entry _ _ _ _ _ _ _ i j x Hruns Hrun Hx)
    as (l & s & _ & _ & Hl' & _ & _ & _ & Hlab & Hinp & _).
  eexists _, _, _. split; [exact Hl' |]. split; [exact Hinp |].
  split; [exact Hlab |].
  destruct (_ =? 0)%Z; cbn; [| done]. by rewrite !andb_false_r.
Qed.

Lemma mask_tokens_original_recoverable_sample :
  runs Sample.collator Sample.bufs None
  ∧ ∃ inputs' labels b',
      mask_tokens Sample.collator Sample.rnd Sample.bufs None
      = (Py.Return (inputs', labels), b')
      ∧ ∃ l' inp lab,
          at2 (mask_labels_buf b') 0 1 = Some l'
          ∧ at2 inputs' 0 1 = Some inp
          ∧ at2 labels 0 1 = Some lab
          ∧ 5%Z = (if (l' =? 0)%Z then inp else lab).
Proof.
  split; [exact runs_sample |].
  destruct (mask_tokens_original_recoverable Sample.collator Sample.rnd
              Sample.bufs None runs_sample)
    as (inputs' & labels & b' & Hcall & Hrec).
  exists inputs', labels, b'. split; [exact Hcall |].
  exact (Hrec 0 1 5%Z eq_refl).
Defined.

(** X8: when the first Bernoulli draw comes out true everywhere, every
    masked position of the returned inputs holds the mask-token id and every
    other position its original id; no random word is used. *)
Theorem mask_tokens_all_replaced (c : Collator) (rnd : Random) (b : buffers)
    (special_tokens_mask : option tensor) :
  runs c b special_tokens_mask →
  (∀ i j, bernoulli_80 rnd i j = true) →
  ∃ inputs' labels b',
    mask_tokens c rnd b special_tokens_mask = (Py.Return (inputs', labels), b')
    ∧ ∀ i j x, at2 (inputs_buf b) i j = Some x →
        ∃ l', at2 (mask_labels_buf b') i j = Some l'
          ∧ at2 inputs' i j
            = Some (if (l' =? 0)%Z then x else mask_token_id (tokenizer c)).
Proof.
  intros Hruns Hall. pose proof (mask_tokens_run c rnd b _ Hruns) as Hrun.
  cbv zeta in Hrun. eexists _, _, _. split; [exact Hrun |].
  intros i j x Hx.
  destruct (mask_tokens_entry _ _ _ _ _ _ _ i j x Hruns Hrun Hx)
    as (l & s & _ & _ & Hl' & _ & _ & _ & _ & Hinp & _).
  eexists. split; [exact Hl' |]. rewrite Hinp, Hall.
  destruct (_ =? 0)%Z, (bernoulli_50 rnd i j); done.
Qed.

Lemma mask_tokens_all_replaced_sample :
  let rnd := {| shuffle := fun _ groups => groups;
                bernoulli_80 := fun _ _ => true;
                bernoulli_50 := fun _ _ => true;
                random_words := fun _ _ => 7%Z |} in
  runs Sample.collator Sample.bufs None
  ∧ ∃ inputs' labels b',
      mask_tokens Sample.collator rnd Sample.bufs None
      = (Py.Return (inputs', labels), b')
      ∧ inputs' = [[2; 4; 4; 4; 3]]%Z.
Proof.
  intros rnd. split; [exact runs_sample |].
  destruct (mask_tokens_all_replaced Sample.collator rnd Sample.bufs None
              runs_sample (fun _ _ => eq_refl))
    as (inputs' & labels & b' & Hcall & _).
  exists inputs', labels, b'. split; [exact Hcall |].
  vm_compute in Hcall. by injection Hcall as <- _ _.
Defined.

(** X9: when no mask label is set, the call changes nothing: whatever the
    random draws, the returned inputs are the original tensor and every
    label is -100. *)
Theorem mask_tokens_nothing_selected (c : Collator) (rnd : Random)
    (b : buffers) (special_tokens_mask : option tensor) :
  runs c b special_tokens_mask →
  (∀ i j l, at2 (mask_labels_buf b) i j = Some l → l = 0%Z) →
  ∃ labels b',
    mask_tokens c rnd b special_tokens_mask
    = (Py.Return (inputs_buf b, labels), b')
    ∧ inputs_buf b' = inputs_buf b
    ∧ mask_labels_buf b' = mask_labels_buf b
    ∧ ∀ i j y, at2 labels i j = Some y → y = (-100)%Z.
Proof.
  intros Hruns Hzero. pose proof (mask_tokens_run c rnd b _ Hruns) as Hrun.
  cbv zeta in Hrun.
  pose proof (mask_tokens_shapes _ _ _ _ _ _ _ Hruns Hrun)
    as (Hsh_in & Hsh_lab & Hsh_ml).
  pose proof Hruns as (_ & Hstm & Hml & _).
  assert (Hentry : ∀ i j x, at2 (inputs_buf b) i j = Some x → _) by
    exact (fun i j x Hx => mask_tokens_entry _ _ _ _ _ _ _ i j x Hruns Hrun Hx).
  match type of Hrun with
  | _ = (Py.Return (?inp, ?lab), ?bufs) =>
      assert (inp = inputs_buf b) as Hinp_eq;
      [| assert (mask_labels_buf bufs = mask_labels_buf b) as Hml_eq;
         [| exists lab, bufs ]]
  end.
  - apply tensor_ext_Some; [done |]. intros i j x Hx.
    destruct (Hentry i j x Hx) as (l & s & Hl & _ & _ & _ & _ & _ & _ & Hinp & _).
    rewrite Hinp, (Hzero i j l Hl). destruct s; cbn; by rewrite !andb_false_r.
  - apply tensor_ext_Some; [by rewrite Hsh_ml |]. intros i j l Hl.
    destruct (at2_same_shape _ (inputs_buf b) i j l Hml Hl) as [x Hx].
    destruct (Hentry i j x Hx) as (l0 & s & Hl0 & _ & Hl' & _).
    rewrite Hl', (Hzero i j l0 Hl0).
    rewrite Hl in Hl0. injection Hl0 as <-. rewrite (Hzero i j l Hl).
    by destruct s.
  - split_and!.
    + rewrite Hrun. do 3 f_equal. exact Hinp_eq.
    + cbn [inputs_buf]. exact Hinp_eq.
    + exact Hml_eq.
    + intros i j y Hy.
      destruct (at2_same_shape _ (inputs_buf b) i j y Hsh_lab Hy) as [x Hx].
      destruct (Hentry i j x Hx) as (l & s & Hl & _ & _ & _ & _ & _ & Hlab & _).
      rewrite (Hzero i j l Hl) in Hlab. rewrite Hlab in Hy.
      destruct s; by injection Hy as <-.
Qed.

Lemma mask_tokens_nothing_selected_sample :
  let b := {| inputs_buf := Sample.ids; mask_labels_buf := [[0; 0; 0; 0; 0]]%Z |} in
  runs Sample.collator b None
  ∧ ∃ labels b',
      mask_tokens Sample.collator Sample.rnd b None
      = (Py.Return (Sample.ids, labels), b').
Proof.
  intros b.
  assert (runs Sample.collator b None) as Hruns
    by (unfold runs; split_and!; reflexivity).
  split; [exact Hruns |].
  destruct (mask_tokens_nothing_selected Sample.collator Sample.rnd b None Hruns)
    as (labels & b' & Hcall & _).
  - intros [| i] j l Hl; [| by destruct i].
    do 5 (destruct j as [| j]; [by injection Hl as <- |]). done.
  - by exists labels, b'.
Defined.

Lemma zip_with_fill_idem (v : Z) (row : list Z) : ∀ mask : list bool,
  zip_with (fun x (m : bool) => if m then v else x)
    (zip_with (fun x (m : bool) => if m then v else x) row mask) mask
  = zip_with (fun x (m : bool) => if m then v else x) row mask.
Proof.
  induction row as [| x row IH]; intros [| m mask]; simpl; [done.. |].
  rewrite IH. by destruct m.
Qed.

(** Filling twice through the same mask is filling once. *)
Lemma masked_fill_idem (t : tensor) : ∀ (mask : list (list bool)) (v : Z),
  masked_fill (masked_fill t mask v) mask v = masked_fill t mask v.
Proof.
  unfold masked_fill, zip2.
  induction t as [| row t IH]; intros [| mrow mask] v; simpl; [done.. |].
  by rewrite IH, zip_with_fill_idem.
Qed.

(** X10: running the corruption a second time on what the first call left,
    with the same special-token mask, runs again, leaves the zeroed
    [mask_labels] as they are, and still returns the original input id and
    the label -100 at every special position. *)
Theorem mask_tokens_twice (c : Collator) (rnd rnd' : Random) (b : buffers)
    (stm : tensor) :
  runs c b (Some stm) →
  ∃ inputs1 labels1 b1 inputs2 labels2 b2,
    mask_tokens c rnd b (Some stm) = (Py.Return (inputs1, labels1), b1)
    ∧ mask_tokens c rnd' b1 (Some stm) = (Py.Return (inputs2, labels2), b2)
    ∧ mask_labels_buf b2 = mask_labels_buf b1
    ∧ ∀ i j, at2 (to_bool stm) i j = Some true →
        at2 inputs2 i j = at2 (inputs_buf b) i j
        ∧ at2 labels2 i j = Some (-100)%Z.
Proof.
  intros Hruns. pose proof (mask_tokens_run c rnd b _ Hruns) as Hrun1.
  cbv zeta in Hrun1.
  pose proof (mask_tokens_shapes _ _ _ _ _ _ _ Hruns Hrun1)
    as (Hsh_in & _ & Hsh_ml).
  pose proof Hruns as (Hmlm & Hstm & Hml & Hvocab).
  cbn [mask_labels_buf] in Hsh_ml.
  match type of Hrun1 with
  | _ = (_, ?bufs) => assert (Hruns2 : runs c bufs (Some stm))
  end.
  { unfold runs. cbn [special_mask mask_labels_buf inputs_buf] in *.
    split_and!; [done | | | done].
    - by rewrite Hsh_ml, <- Hml.
    - by rewrite Hsh_ml, Hsh_in. }
  pose proof (mask_tokens_run c rnd' _ _ Hruns2) as Hrun2.
  cbv zeta in Hrun2.
  eexists _, _, _, _, _, _. split; [exact Hrun1 |]. split; [exact Hrun2 |].
  split.
  - cbn [mask_labels_buf special_mask]. apply masked_fill_idem.
  - intros i j Hs.
    destruct (at2_same_shape _ (inputs_buf b) i j true (eq_trans Hstm Hml) Hs)
      as [x Hx].
    destruct (mask_tokens_entry _ _ _ _ _ _ _ i j x Hruns Hrun1 Hx)
      as (l & s & _ & Hs1 & _ & _ & _ & _ & _ & Hinp1 & _).
    cbn [special_mask] in Hs1. rewrite Hs in Hs1. injection Hs1 as <-.
    cbn in Hinp1. rewrite !andb_false_r in Hinp1.
    destruct (mask_tokens_entry _ _ _ _ _ _ _ i j x Hruns2 Hrun2 Hinp1)
      as (l2 & s2 & _ & Hs2 & _ & _ & _ & _ & Hlab2 & Hinp2 & _).
    cbn [special_mask] in Hs2. rewrite Hs in Hs2. injection Hs2 as <-.
    cbn in Hlab2, Hinp2. rewrite !andb_false_r in Hinp2.
    by rewrite Hx.
Qed.

Lemma mask_tokens_twice_sample :
  let stm := [[1; 0; 0; 0; 1]]%Z in
  runs Sample.collator Sample.bufs (Some stm)
  ∧ ∃ inputs1 labels1 b1 inputs2 labels2 b2,
      mask_tokens Sample.collator Sample.rnd Sample.bufs (Some stm)
      = (Py.Return (inputs1, labels1), b1)
      ∧ mask_tokens Sample.collator Sample.rnd b1 (Some stm)
        = (Py.Return (inputs2, labels2), b2)
      ∧ mask_labels_buf b2 = mask_labels_buf b1.
Proof.
  intros stm.
  assert (runs Sample.collator Sample.bufs (Some stm)) as Hruns
    by (unfold runs; split_and!; reflexivity).
  split; [exact Hruns |].
  destruct (mask_tokens_twice Sample.collator Sample.rnd Sample.rnd
              Sample.bufs stm Hruns)
    as (i1 & l1 & b1 & i2 & l2 & b2 & H1 & H2 & Hml & _).
  by exists i1, l1, b1, i2, l2, b2.
Defined.

(** ** More on [__call__] *)

(** [__call__] on dict examples, up to the call of [mask_tokens]. *)
Lemma call_dict_unfold (collate : list (list Z) → Py.outcome tensor)
    (c : Collator) (rnd : Random) enc rest padded input_ids batch_mask :
  tokenizer_pad (tokenizer c) (ExDict enc :: rest) = Py.Return padded →
  padded !! "input_ids" = Some input_ids →
  collate (row_masks c rnd input_ids) = Py.Return batch_mask →
  __call__ collate c rnd (ExDict enc :: rest) =
    res ← (mask_tokens c rnd
             {| inputs_buf := input_ids; mask_labels_buf := batch_mask |}
             (padded !! "special_tokens_mask")).1;
    mret (<["labels" := res.2]>
            (<["input_ids" := res.1]> (delete "special_tokens_mask" padded))).
Proof.
  intros Hpad Hids Hcollate. unfold __call__, collate_examples.
  rewrite Hpad, bind_Return.
  rewrite lookup_delete_ne by done. rewrite Hids. cbn [from_option].
  by rewrite bind_Return, Hcollate, bind_Return.
Qed.

Lemma mapM_raw_ids (rows : list (list Z)) :
  mapM raw_ids (ExIds <$> rows) = Py.Return rows.
Proof.
  induction rows as [| r rows IH]; [done |].
  cbn [fmap list_fmap mapM raw_ids]. rewrite bind_Return, IH. done.
Qed.

(** X11: for a batch of raw id lists that collates and on which
    [mask_tokens] runs, [__call__] returns a mapping with exactly two keys,
    [input_ids] and [labels], holding the pair returned by [mask_tokens];
    the special-token mask is then the tokenizer's own. *)
Theorem call_raw_id_lists (collate : list (list Z) → Py.outcome tensor)
    (c : Collator) (rnd : Random) (ids : list Z) (rows : list (list Z))
    (input_ids batch_mask : tensor) :
  let examples := ExIds <$> (ids :: rows) in
  let b := {| inputs_buf := input_ids; mask_labels_buf := batch_mask |} in
  collate (ids :: rows) = Py.Return input_ids →
  collate (row_masks c rnd input_ids) = Py.Return batch_mask →
  runs c b None →
  ∃ batch inputs' labels,
    __call__ collate c rnd examples = Py.Return batch
    ∧ (mask_tokens c rnd b None).1 = Py.Return (inputs', labels)
    ∧ batch !! "input_ids" = Some inputs'
    ∧ batch !! "labels" = Some labels
    ∧ ∀ k, k ≠ "input_ids" → k ≠ "labels" → batch !! k = None.
Proof.
  intros examples b Hcollate Hmask Hruns.
  pose proof (mask_tokens_run c rnd b _ Hruns) as Hrun. cbv zeta in Hrun.
  unfold __call__, collate_examples, examples. cbn [fmap list_fmap].
  change (mapM raw_ids (ExIds ids :: (ExIds <$> rows)))
    with (mapM raw_ids (ExIds <$> (ids :: rows))).
  rewrite mapM_raw_ids, bind_Return, Hcollate, !bind_Return.
  rewrite lookup_delete_ne by done. rewrite lookup_singleton_eq.
  cbn [from_option]. rewrite bind_Return, Hmask, bind_Return.
  rewrite lookup_singleton_ne by done. fold b. rewrite Hrun.
  cbn [fst]. rewrite bind_Return. cbn [fst snd].
  eexists _, _, _. split; [reflexivity |]. split; [reflexivity |].
  split; [by rewrite lookup_insert_ne, lookup_insert_eq |].
  split; [by rewrite lookup_insert_eq |].
  intros k Hk1 Hk2. rewrite !lookup_insert_ne by done.
  destruct (decide (k = "special_tokens_mask")) as [-> | Hk3].
  - by rewrite lookup_delete_eq.
  - rewrite lookup_delete_ne by done. by rewrite lookup_singleton_ne.
Qed.

Lemma call_raw_id_lists_sample :
  Sample.stack [[2; 5; 6; 7; 3]%Z] = Py.Return Sample.ids
  ∧ ∃ batch,
      __call__ Sample.stack Sample.collator Sample.rnd [ExIds [2; 5; 6; 7; 3]%Z]
      = Py.Return batch
      ∧ batch !! "attention_mask" = None.
Proof.
  split; [reflexivity |].
  destruct (call_raw_id_lists Sample.stack Sample.collator Sample.rnd
              [2; 5; 6; 7; 3]%Z [] Sample.ids Sample.word_mask)
    as (batch & inputs' & labels & Hcall & _ & _ & _ & Hother).
  - reflexivity.
  - reflexivity.
  - exact runs_sample.
  - exists batch. split; [exact Hcall |]. by apply Hother.
Defined.

(** X12: when the padded batch of dict examples has no [input_ids] key,
    [__call__] raises [KeyError]. *)
Theorem call_missing_input_ids (collate : list (list Z) → Py.outcome tensor)
    (c : Collator) (rnd : Random) (enc : gmap string (list Z))
    (rest : list example) (padded : gmap string tensor) :
  tokenizer_pad (tokenizer c) (ExDict enc :: rest) = Py.Return padded →
  padded !! "input_ids" = None →
  __call__ collate c rnd (ExDict enc :: rest) = Py.Raise Py.KeyError.
Proof.
  intros Hpad Hids. unfold __call__, collate_examples.
  rewrite Hpad, bind_Return.
  rewrite lookup_delete_ne by done. by rewrite Hids.
Qed.

Lemma call_missing_input_ids_sample :
  let tk := {| cls_token := "[CLS]"; sep_token := "[SEP]";
               mask_token_id := 4; vocab_len := 9;
               convert_ids_to_tokens := fun _ => [];
               get_special_tokens_mask := fun ids => ids;
               tokenizer_pad := fun _ => Py.Return ∅ |} in
  let c := {| tokenizer := tk; mlm := true; scaled_round := Z.of_nat |} in
  __call__ Sample.stack c Sample.rnd [ExDict ∅] = Py.Raise Py.KeyError.
Proof.
  intros tk c.
  by apply (call_missing_input_ids Sample.stack c Sample.rnd ∅ [] ∅).
Defined.

(** X13: with [mlm] off, [__call__] on dict examples that pad and whose
    mask vectors collate raises the [AssertionError] of [mask_tokens]: the
    whole-word masks are built first, the batch is never returned. *)
Theorem call_mlm_disabled (collate : list (list Z) → Py.outcome tensor)
    (c : Collator) (rnd : Random) (enc : gmap string (list Z))
    (rest : list example) (padded : gmap string tensor)
    (input_ids batch_mask : tensor) :
  mlm c = false →
  tokenizer_pad (tokenizer c) (ExDict enc :: rest) = Py.Return padded →
  padded !! "input_ids" = Some input_ids →
  collate (row_masks c rnd input_ids) = Py.Return batch_mask →
  __call__ collate c rnd (ExDict enc :: rest) = Py.Raise Py.AssertionError.
Proof.
  intros Hmlm Hpad Hids Hcollate.
  rewrite (call_dict_unfold _ _ _ _ _ _ _ _ Hpad Hids Hcollate).
  unfold mask_tokens. by rewrite Hmlm.
Qed.

Lemma call_mlm_disabled_sample :
  mlm Sample.collator_no_mlm = false
  ∧ __call__ Sample.stack Sample.collator_no_mlm Sample.rnd Sample.examples
    = Py.Raise Py.AssertionError.
Proof.
  split; [reflexivity |].
  apply (call_mlm_disabled Sample.stack Sample.collator_no_mlm Sample.rnd
           _ [] Sample.padded Sample.ids Sample.word_mask).
  - reflexivity.
  - vm_compute. reflexivity.
  - reflexivity.
  - reflexivity.
Defined.

(** X14: [__call__] on dict examples that carry a [special_tokens_mask]:
    the returned [input_ids] and [labels] have the shape of the padded
    [input_ids]; every label is the original id or -100; a special position
    keeps its id and has label -100; and a position whose label is -100
    keeps its id (unless that id is -100 itself). *)
Theorem call_positions (collate : list (list Z) → Py.outcome tensor)
    (c : Collator) (rnd : Random) (enc : gmap string (list Z))
    (rest : list example) (padded : gmap string tensor)
    (input_ids batch_mask stm : tensor) :
  let b := {| inputs_buf := input_ids; mask_labels_buf := batch_mask |} in
  tokenizer_pad (tokenizer c) (ExDict enc :: rest) = Py.Return padded →
  padded !! "input_ids" = Some input_ids →
  padded !! "special_tokens_mask" = Some stm →
  collate (row_masks c rnd input_ids) = Py.Return batch_mask →
  runs c b (Some stm) →
  ∃ batch inputs' labels,
    __call__ collate c rnd (ExDict enc :: rest) = Py.Return batch
    ∧ batch !! "input_ids" = Some inputs'
    ∧ batch !! "labels" = Some labels
    ∧ shape inputs' = shape input_ids
    ∧ shape labels = shape input_ids
    ∧ ∀ i j x, at2 input_ids i j = Some x →
        (at2 labels i j = Some x ∨ at2 labels i j = Some (-100)%Z)
        ∧ (at2 (to_bool stm) i j = Some true →
             at2 inputs' i j = Some x ∧ at2 labels i j = Some (-100)%Z)
        ∧ (at2 labels i j = Some (-100)%Z → x ≠ (-100)%Z →
             at2 inputs' i j = Some x).
Proof.
  intros b Hpad Hids Hstm Hcollate Hruns.
  pose proof (mask_tokens_run c rnd b _ Hruns) as Hrun. cbv zeta in Hrun.
  pose proof (mask_tokens_shapes _ _ _ _ _ _ _ Hruns Hrun)
    as (Hsh_in & Hsh_lab & _).
  rewrite (call_dict_unfold _ _ _ _ _ _ _ _ Hpad Hids Hcollate).
  rewrite Hstm. fold b. rewrite Hrun. cbn [fst]. rewrite bind_Return.
  cbn [fst snd].
  eexists _, _, _. split; [reflexivity |].
  split; [by rewrite lookup_insert_ne, lookup_insert_eq |].
  split; [by rewrite lookup_insert_eq |].
  split; [exact Hsh_in |]. split; [exact Hsh_lab |].
  intros i j x Hx.
  destruct (mask_tokens_entry _ _ _ _ _ _ _ i j x Hruns Hrun Hx)
    as (l & s & _ & Hs & _ & _ & _ & _ & Hlab & Hinp & _).
  cbn [special_mask] in Hs. rewrite Hlab, Hinp.
  destruct (negb _) eqn:Hm.
  - split_and!.
    + by left.
    + intros Hs'. rewrite Hs' in Hs. injection Hs as <-. done.
    + intros [= ?] ?. done.
  - rewrite !andb_false_r. split_and!; [by right | done | done].
Qed.

Lemma call_positions_sample :
  tokenizer_pad Sample.tok Sample.examples = Py.Return Sample.padded
  ∧ ∃ batch labels,
      __call__ Sample.stack Sample.collator Sample.rnd Sample.examples
      = Py.Return batch
      ∧ batch !! "labels" = Some labels
      ∧ at2 labels 0 0 = Some (-100)%Z.
Proof.
  assert (tokenizer_pad Sample.tok Sample.examples = Py.Return Sample.padded)
    as Hpad by (vm_compute; reflexivity).
  split; [exact Hpad |].
  destruct (call_positions Sample.stack Sample.collator Sample.rnd
              _ [] Sample.padded Sample.ids Sample.word_mask
              [[1; 0; 0; 0; 1]]%Z Hpad)
    as (batch & inputs' & labels & Hcall & _ & Hlab & _ & _ & Hpos).
  - reflexivity.
  - reflexivity.
  - reflexivity.
  - unfold runs. split_and!; reflexivity.
  - exists batch, labels. split; [exact Hcall |]. split; [exact Hlab |].
    destruct (Hpos 0 0 2%Z eq_refl) as (_ & Hsp & _). by apply Hsp.
Defined.
